(** * Reader.tsx: the highlight engine of the document reader

    A shallow embedding of [src/components/Reader.tsx]: the text offset
    helper [getBlockOffset], the renderer [HighlightedText] with its
    sort-and-merge pass, the load effect, [saveHighlights],
    [clearHighlights] and the selection loop of [applyHighlight].

    JavaScript numbers that hold text offsets are integers and are modelled
    by [Z]; block indices and DOM range offsets are unsigned and modelled by
    [nat]; strings are [string], one character per UTF-16 code unit. *)

From Stdlib Require Import ZArith Lia Bool List Ascii String.
From Stdlib Require Import Decimal DecimalFacts DecimalPos DecimalString.
From stdpp Require Import base option list gmap strings sorting.

Local Open Scope Z_scope.

(** ** Data model (Reader.tsx, lines 11-18; types.ts) *)

(** [interface Highlight { start: number; end: number }].  [end] is a keyword
    of Rocq, so the second field is [end_]. *)
Record Highlight := mkHighlight { start : Z; end_ : Z }.

#[global] Instance Highlight_eq_dec : EqDecision Highlight.
Proof. solve_decision. Defined.

#[global] Instance Highlight_inhabited : Inhabited Highlight :=
  populate (mkHighlight 0 0).

(** [interface HighlightsState { [blockIndex: number]: Highlight[] }] *)
Abbreviation HighlightsState := (gmap nat (list Highlight)).

Inductive ContentType :=
  | paragraph | verse | heading | quote | separator | emphasis
  | code_block | scripture_line.

Record ContentBlock := mkBlock { type : ContentType; text : string }.

(** The length of a JavaScript string as a number. *)
Definition strlen (s : string) : Z := Z.of_nat (String.length s).

(** ** The DOM under a block element

    A node is a text node or an element.  Every node object has an identity
    ([node_id]); [node === target] compares identities. *)
#[warnings="-register-all"]
Inductive Node :=
  | TextNode (id : nat) (data : string)
  | Element (id : nat) (children : list Node).

Definition node_id (n : Node) : nat :=
  match n with TextNode id _ => id | Element id _ => id end.

(** [node.textContent]: the data of a text node, the concatenated text of
    the descendants of an element. *)
Fixpoint textContent (n : Node) : string :=
  match n with
  | TextNode _ data => data
  | Element _ children => foldr (fun c acc => textContent c +:+ acc) EmptyString children
  end.

(** [node.textContent?.length || 0]. *)
Definition textContent_length (n : Node) : Z := strlen (textContent n).

(** The text nodes of a subtree in document order, the subtree's root
    included. *)
Fixpoint textNodes (n : Node) : list Node :=
  match n with
  | TextNode _ _ => [n]
  | Element _ children => flat_map textNodes children
  end.

(** [document.createTreeWalker(root, NodeFilter.SHOW_TEXT)] followed by
    repeated [walker.nextNode()]: the text nodes below [root] in document
    order.  The walker starts at [root] and [nextNode] moves forward first, so
    [root] itself is never produced. *)
Definition createTreeWalker (root : Node) : list Node :=
  match root with
  | TextNode _ _ => []
  | Element _ children => flat_map textNodes children
  end.

(** The [while (node)] loop of [getBlockOffset]; [nodes] is what the walker
    still has to produce. *)
Fixpoint walk (nodes : list Node) (target : Node) (offset currentOffset : Z) : Z :=
  match nodes with
  | [] => -1
  | node :: rest =>
      if Nat.eqb (node_id node) (node_id target) then currentOffset + offset
      else walk rest target offset (currentOffset + textContent_length node)
  end.

(** [getBlockOffset] (lines 165-178). *)
Definition getBlockOffset (root target : Node) (offset : Z) : Z :=
  walk (createTreeWalker root) target offset 0.

(** The sum of the text lengths of a list of text nodes. *)
Definition textLength (nodes : list Node) : Z :=
  foldr (fun n acc => textContent_length n + acc) 0 nodes.

Definition totalTextLength (root : Node) : Z := textLength (createTreeWalker root).

(** ** The renderer [HighlightedText] (lines 181-224) *)

(** [text.slice(a, b)] for integer arguments: a negative index counts from
    the end of the string, an index past the end is the end, and an empty
    string results when the bounds cross. *)
Definition slice (s : string) (a b : Z) : string :=
  let len := strlen s in
  let from := if a <? 0 then Z.max (len + a) 0 else Z.min a len in
  let to := if b <? 0 then Z.max (len + b) 0 else Z.min b len in
  substring (Z.to_nat from) (Z.to_nat (Z.max (to - from) 0)) s.

(** The array [highlights] holds one object per slot.  The sort works on a
    copy of the array that holds the same objects ([[...highlights]]), and the
    merge loop assigns to [current.end], a field of one of these objects.  An
    object is therefore named by its slot in [highlights], and the array itself
    is the store in which the loop writes. *)
Definition deref (objs : list Highlight) (r : nat) : Highlight := objs !!! r.

(** [sort((a, b) => a.start - b.start)]: [Array.prototype.sort] is stable, so
    the result is the insertion of every element, from the last to the first,
    in front of the first element that does not compare smaller. *)
Fixpoint insert_ref (objs : list Highlight) (r : nat) (l : list nat) : list nat :=
  match l with
  | [] => [r]
  | r' :: l' =>
      if start (deref objs r) - start (deref objs r') <=? 0 then r :: l
      else r' :: insert_ref objs r l'
  end.

Definition sort_refs (objs : list Highlight) (l : list nat) : list nat :=
  foldr (insert_ref objs) [] l.

(** [const sorted = [...highlights].sort(...)]. *)
Definition sorted (highlights : list Highlight) : list nat :=
  sort_refs highlights (seq 0 (length highlights)).

(** The [for] loop of lines 190-197 followed by the last [merged.push]:
    [rest] is [sorted[i..]], [current] the accumulator object, [objs] the
    store. *)
Fixpoint sweep (objs : list Highlight) (current : nat) (rest : list nat)
    (merged : list nat) : list Highlight * list nat :=
  match rest with
  | [] => (objs, merged ++ [current])
  | next :: rest' =>
      if end_ (deref objs current) >=? start (deref objs next) then
        sweep (<[current :=
                   {| start := start (deref objs current);
                      end_ := Z.max (end_ (deref objs current)) (end_ (deref objs next)) |}]>
                 objs)
              current rest' merged
      else sweep objs next rest' (merged ++ [current])
  end.

(** Lines 185-199: the objects of [highlights] after the pass, and [merged]. *)
Definition mergePass (highlights : list Highlight) : list Highlight * list nat :=
  match sorted highlights with
  | [] => (highlights, [])
  | first :: rest => sweep highlights first rest []
  end.

(** The ranges that [merged] holds when the pass is over: the output of the
    specification's RangeMerger. *)
Definition RangeMerger (x : list Highlight) : list Highlight :=
  let '(objs, merged) := mergePass x in deref objs <$> merged.

(** A rendered part: a [<span>] with the highlight class or without it (or
    the bare text when there is nothing to highlight). *)
Record Segment := mkSegment { seg_text : string; highlighted : bool }.

(** [merged.forEach((h, i) => ...)] of lines 204-217, with [lastIndex] and
    [parts] threaded through. *)
Fixpoint forEach_merged (text : string) (merged : list Highlight)
    (lastIndex : Z) (parts : list Segment) : Z * list Segment :=
  match merged with
  | [] => (lastIndex, parts)
  | h :: rest =>
      let start' := Z.max 0 (Z.min (start h) (strlen text)) in
      let end' := Z.max 0 (Z.min (end_ h) (strlen text)) in
      let parts :=
        if start' >? lastIndex
        then parts ++ [mkSegment (slice text lastIndex start') false]
        else parts in
      let parts := parts ++ [mkSegment (slice text start' end') true] in
      forEach_merged text rest end' parts
  end.

(** [HighlightedText]: the objects of the [highlights] array as the call
    leaves them ([None] when the property is [undefined]), and the parts. *)
Definition HighlightedText (text : string) (highlights : option (list Highlight))
    : option (list Highlight) * list Segment :=
  match highlights with
  | None => (None, [mkSegment text false])
  | Some [] => (Some [], [mkSegment text false])
  | Some hs =>
      let '(objs, merged) := mergePass hs in
      let '(lastIndex, parts) := forEach_merged text (deref objs <$> merged) 0 [] in
      let parts :=
        if lastIndex <? strlen text
        then parts ++ [mkSegment (slice text lastIndex (strlen text)) false]
        else parts in
      (Some objs, parts)
  end.

(** The text that a list of parts displays. *)
Definition rendered_text (parts : list Segment) : string :=
  foldr (fun p acc => seg_text p +:+ acc) EmptyString parts.

(** [renderContent] (lines 342-403) renders block [index] from
    [highlights[index]]; the arrays of the state hold the objects that the
    renderer received, so the state afterwards holds them as the renderer left
    them.  A separator shows no text and its [HighlightedText] element is
    never rendered; a quote shows its parts between two quotation marks. *)
Definition renderContent (highlights : HighlightsState) (block : ContentBlock)
    (index : nat) : HighlightsState * list Segment :=
  match type block with
  | separator => (highlights, [])
  | t =>
      let '(objs, parts) := HighlightedText (text block) (highlights !! index) in
      let mark := mkSegment (String "034" EmptyString) false in
      (match objs with Some l => <[index := l]> highlights | None => highlights end,
       match t with quote => [mark] ++ parts ++ [mark] | _ => parts end)
  end.

(** *** The merge pass on values

    The same sort and the same loop with the accumulator held by value; the
    store model above agrees with it ([RangeMerger_values] below). *)
Fixpoint insert_by_start (h : Highlight) (l : list Highlight) : list Highlight :=
  match l with
  | [] => [h]
  | h' :: l' =>
      if start h - start h' <=? 0 then h :: l else h' :: insert_by_start h l'
  end.

Definition sort_by_start (l : list Highlight) : list Highlight :=
  foldr insert_by_start [] l.

Fixpoint sweep_values (current : Highlight) (rest : list Highlight) : list Highlight :=
  match rest with
  | [] => [current]
  | next :: rest' =>
      if end_ current >=? start next then
        sweep_values
          {| start := start current; end_ := Z.max (end_ current) (end_ next) |} rest'
      else current :: sweep_values next rest'
  end.

Definition merge_values (l : list Highlight) : list Highlight :=
  match sort_by_start l with
  | [] => []
  | first :: rest => sweep_values first rest
  end.

(** *** Vocabulary of the claims about range lists *)

(** Ascending by [start]. *)
Definition by_start (a b : Highlight) : Prop := start a <= start b.

(** Strictly separated: neither overlapping nor touching. *)
Definition apart (a b : Highlight) : Prop := end_ a < start b.

(** [Math.max(0, Math.min(v, text.length))]. *)
Definition clamp (text : string) (v : Z) : Z := Z.max 0 (Z.min v (strlen text)).

(** ** JSON text: [JSON.stringify] and [JSON.parse]

    The two built-ins on the values that the reader stores: [null], booleans,
    integer numbers, strings, arrays and objects.  The model leaves out number
    literals with a fraction or an exponent and escape sequences in strings:
    the printer is the built-in on values whose strings need no escape
    ([plain_json]), and the parser accepts the JSON texts without such
    literals, with [None] for the [SyntaxError] exception. *)
#[warnings="-register-all"]
Inductive json :=
  | JNull
  | JBool (b : bool)
  | JNum (n : Z)
  | JStr (s : string)
  | JArr (items : list json)
  | JObj (members : list (string * json)).

Definition dquote : ascii := "034"%char.
Definition backslash : ascii := "092"%char.

(** A number as [JSON.stringify] prints it: decimal digits, [-] in front of a
    negative number (integers below 10^21 in absolute value print this way). *)
Definition number_to_string (n : Z) : string :=
  match n with
  | Z0 => "0"
  | Zpos p => NilEmpty.string_of_uint (Pos.to_uint p)
  | Zneg p => String "-" (NilEmpty.string_of_uint (Pos.to_uint p))
  end.

Definition quoted (s : string) : string :=
  String dquote (s +:+ String dquote EmptyString).

(** What follows the first element of an array or the first member of an
    object: [,] and the next one, again and again, then the closing bracket. *)
Fixpoint join_tail {A} (f : A -> string) (close : ascii) (l : list A) : string :=
  match l with
  | [] => String close EmptyString
  | y :: l' => String "," (f y +:+ join_tail f close l')
  end.

Fixpoint JSON_stringify (v : json) : string :=
  match v with
  | JNull => "null"
  | JBool true => "true"
  | JBool false => "false"
  | JNum n => number_to_string n
  | JStr s => quoted s
  | JArr items =>
      String "["
        (match items with
         | [] => "]"
         | x :: rest => JSON_stringify x +:+ join_tail JSON_stringify "]" rest
         end)
  | JObj members =>
      let member (kv : string * json) :=
        let '(k, x) := kv in quoted k +:+ String ":" (JSON_stringify x) in
      String "{"
        (match members with
         | [] => "}"
         | kv :: rest => member kv +:+ join_tail member "}" rest
         end)
  end.

(** A member of an object as [JSON_stringify] prints it. *)
Definition print_member (kv : string * json) : string :=
  let '(k, x) := kv in quoted k +:+ String ":" (JSON_stringify x).

(** A string that [JSON.stringify] prints between quotes as it is: no quote,
    no backslash, no control character. *)
Fixpoint plain (s : string) : bool :=
  match s with
  | EmptyString => true
  | String c r =>
      negb (Ascii.eqb c dquote) && negb (Ascii.eqb c backslash)
      && negb (nat_of_ascii c <? 32)%nat && plain r
  end.

(** The values all of whose strings and keys are [plain]. *)
Fixpoint plain_json (v : json) : Prop :=
  match v with
  | JStr s => plain s = true
  | JArr items => foldr (fun x acc => plain_json x /\ acc) True items
  | JObj members =>
      foldr (fun kv acc => (plain kv.1 = true /\ plain_json kv.2) /\ acc) True members
  | _ => True
  end.

(** The number of nested calls that the parser needs for a value. *)
Fixpoint jsize (v : json) : nat :=
  match v with
  | JArr items => S (foldr (fun x acc => S (jsize x + acc)) O items)
  | JObj members => S (foldr (fun kv acc => S (jsize kv.2 + acc)) O members)
  | _ => 1
  end.

(** What may follow a value in a JSON text: the end of the text, [,], []]
    or [}]. *)
Definition delimited (rest : string) : Prop :=
  match rest with
  | EmptyString => True
  | String c _ => c = ","%char \/ c = "]"%char \/ c = "}"%char
  end.

(** JSON white space: space, tab, line feed, carriage return. *)
Definition is_ws (c : ascii) : bool :=
  match c with
  | " " | "009" | "010" | "013" => true
  | _ => false
  end%char.

Fixpoint skip_ws (s : string) : string :=
  match s with
  | String c r => if is_ws c then skip_ws r else s
  | EmptyString => s
  end.

Definition digit_of_ascii (c : ascii) : option (uint -> uint) :=
  match c with
  | "0" => Some D0 | "1" => Some D1 | "2" => Some D2 | "3" => Some D3
  | "4" => Some D4 | "5" => Some D5 | "6" => Some D6 | "7" => Some D7
  | "8" => Some D8 | "9" => Some D9
  | _ => None
  end%char.

(** The characters that a number starts with: a digit or [-]. *)
Definition is_number_start (c : ascii) : bool :=
  match digit_of_ascii c with
  | Some _ => true
  | None => Ascii.eqb c "-"
  end.

(** The characters that a printed value starts with. *)
Definition is_value_start (c : ascii) : bool :=
  is_number_start c
  || Ascii.eqb c "n" || Ascii.eqb c "t" || Ascii.eqb c "f"
  || Ascii.eqb c dquote || Ascii.eqb c "[" || Ascii.eqb c "{".

(** A text that does not go on with a digit. *)
Definition no_digit (rest : string) : Prop :=
  match rest with
  | EmptyString => True
  | String c _ => digit_of_ascii c = None
  end.

(** The longest run of digits at the front of [s], and what follows it. *)
Fixpoint scan_digits (s : string) : uint * string :=
  match s with
  | String c r =>
      match digit_of_ascii c with
      | Some d => let '(u, r') := scan_digits r in (d u, r')
      | None => (Nil, s)
      end
  | EmptyString => (Nil, s)
  end.

(** A JSON number without fraction and exponent: an optional [-], then [0] or
    a digit run that does not start with [0]. *)
Definition parse_number (s : string) : option (Z * string) :=
  let '(negative, s1) :=
    match s with
    | String "-"%char r => (true, r)
    | _ => (false, s)
    end in
  let '(u, r) := scan_digits s1 in
  let starts_fraction_or_exponent :=
    match r with
    | String "."%char _ | String "e"%char _ | String "E"%char _ => true
    | _ => false
    end in
  match u with
  | Nil => None
  | D0 (D0 _ | D1 _ | D2 _ | D3 _ | D4 _ | D5 _ | D6 _ | D7 _ | D8 _ | D9 _) => None
  | _ =>
      if starts_fraction_or_exponent then None
      else Some (if negative then - Z.of_N (N.of_uint u) else Z.of_N (N.of_uint u), r)
  end.

(** The characters of a string literal after its opening quote, up to the
    closing quote. *)
Fixpoint scan_string (s : string) : option (string * string) :=
  match s with
  | EmptyString => None
  | String c r =>
      if Ascii.eqb c dquote then Some (EmptyString, r)
      else if Ascii.eqb c backslash then None
      else if (nat_of_ascii c <? 32)%nat then None
      else match scan_string r with
           | Some (body, r') => Some (String c body, r')
           | None => None
           end
  end.

Fixpoint strip_prefix (p s : string) : option string :=
  match p, s with
  | EmptyString, _ => Some s
  | String a p', String b s' => if Ascii.eqb a b then strip_prefix p' s' else None
  | String _ _, EmptyString => None
  end.

(** What the recursive-descent parser is reading: a value, the elements of an
    array after [[], or the members of an object after [{]; [acc] holds what
    has been read, last first. *)
Inductive task :=
  | TValue
  | TElements (acc : list json)
  | TMembers (acc : list (string * json)).

Fixpoint parse (fuel : nat) (t : task) (s : string) : option (json * string) :=
  match fuel with
  | O => None
  | S fuel =>
      match t with
      | TValue =>
          match skip_ws s with
          | EmptyString => None
          | String c r =>
              if Ascii.eqb c "{" then
                match skip_ws r with
                | String "}"%char r' => Some (JObj [], r')
                | _ => parse fuel (TMembers []) r
                end
              else if Ascii.eqb c "[" then
                match skip_ws r with
                | String "]"%char r' => Some (JArr [], r')
                | _ => parse fuel (TElements []) r
                end
              else if Ascii.eqb c dquote then
                match scan_string r with
                | Some (body, r') => Some (JStr body, r')
                | None => None
                end
              else if Ascii.eqb c "n" then
                match strip_prefix "ull" r with
                | Some r' => Some (JNull, r')
                | None => None
                end
              else if Ascii.eqb c "t" then
                match strip_prefix "rue" r with
                | Some r' => Some (JBool true, r')
                | None => None
                end
              else if Ascii.eqb c "f" then
                match strip_prefix "alse" r with
                | Some r' => Some (JBool false, r')
                | None => None
                end
              else
                match parse_number (String c r) with
                | Some (n, r') => Some (JNum n, r')
                | None => None
                end
          end
      | TElements acc =>
          match parse fuel TValue s with
          | Some (v, r) =>
              match skip_ws r with
              | String ","%char r' => parse fuel (TElements (v :: acc)) r'
              | String "]"%char r' => Some (JArr (rev (v :: acc)), r')
              | _ => None
              end
          | None => None
          end
      | TMembers acc =>
          match skip_ws s with
          | String q r =>
              if Ascii.eqb q dquote then
                match scan_string r with
                | Some (key, r1) =>
                    match skip_ws r1 with
                    | String ":"%char r2 =>
                        match parse fuel TValue r2 with
                        | Some (v, r3) =>
                            match skip_ws r3 with
                            | String ","%char r4 =>
                                parse fuel (TMembers ((key, v) :: acc)) r4
                            | String "}"%char r4 =>
                                Some (JObj (rev ((key, v) :: acc)), r4)
                            | _ => None
                            end
                        | None => None
                        end
                    | _ => None
                    end
                | None => None
                end
              else None
          | EmptyString => None
          end
      end
  end.

(** The statement for one value: with fuel for its size, the parser reads
    the printed value back and stops where the value ends. *)
Definition reads_back (v : json) : Prop :=
  plain_json v ->
  forall fuel rest, (jsize v <= fuel)%nat -> delimited rest ->
  parse fuel TValue (JSON_stringify v +:+ rest) = Some (v, rest).

(** [JSON.parse(s)]: one value, then nothing but white space.  The calls of
    the parser nest no deeper than the text is long, so its length is fuel
    enough ([JSON_parse_stringify] below shows it for printed values). *)
Definition JSON_parse (s : string) : option json :=
  match parse (S (String.length s)) TValue s with
  | Some (v, r) =>
      match skip_ws r with
      | EmptyString => Some v
      | _ => None
      end
  | None => None
  end.

(** ** The stored state as a JSON value

    A [HighlightsState] is a JavaScript object whose keys are block indices
    and whose values are arrays of [{start, end}] objects.  [JSON.stringify]
    lists integer keys in ascending order. *)
Definition Highlight_to_json (h : Highlight) : json :=
  JObj [("start"%string, JNum (start h)); ("end"%string, JNum (end_ h))].

Definition key_of_index (i : nat) : string := number_to_string (Z.of_nat i).

Definition key_le (a b : nat * list Highlight) : Prop := (a.1 <= b.1)%nat.

#[global] Instance key_le_dec : RelDecision key_le.
Proof. intros a b. unfold key_le. apply _. Defined.

Definition entries (H : HighlightsState) : list (nat * list Highlight) :=
  merge_sort key_le (map_to_list H).

Definition entry_to_member (e : nat * list Highlight) : string * json :=
  (key_of_index e.1, JArr (Highlight_to_json <$> e.2)).

Definition state_to_json (H : HighlightsState) : json :=
  JObj (entry_to_member <$> entries H).

(** The parsed values that have the declared shape, read back as a
    [HighlightsState]; a key that occurs twice keeps its last value. *)
Definition json_to_Highlight (v : json) : option Highlight :=
  match v with
  | JObj [(k1, JNum s); (k2, JNum e)] =>
      if decide (k1 = "start"%string /\ k2 = "end"%string)
      then Some (mkHighlight s e) else None
  | _ => None
  end.

Definition json_to_ranges (v : json) : option (list Highlight) :=
  match v with
  | JArr items => mapM json_to_Highlight items
  | _ => None
  end.

Definition index_of_key (k : string) : option nat :=
  match parse_number k with
  | Some (n, EmptyString) =>
      if decide (0 <= n /\ key_of_index (Z.to_nat n) = k)
      then Some (Z.to_nat n) else None
  | _ => None
  end.

Definition read_member (acc : option HighlightsState) (kv : string * json)
    : option HighlightsState :=
  H ← acc; i ← index_of_key kv.1; l ← json_to_ranges kv.2; Some (<[i := l]> H).

Definition json_to_state (v : json) : option HighlightsState :=
  match v with
  | JObj members => foldl read_member (Some ∅) members
  | _ => None
  end.

(** ** The component state, the load effect and [saveHighlights]
    (lines 230-256)

    [useState<HighlightsState>] holds what [setHighlights] received.  The load
    effect passes the result of [JSON.parse] unchecked, so the state is a
    [HighlightsState] ([Shaped]) or a parsed value of another shape
    ([Foreign]). *)
Inductive State :=
  | Shaped (h : HighlightsState)
  | Foreign (v : json).

Definition storageKey (sectionId : string) : string :=
  "highlights-" +:+ sectionId.

(** [setHighlights(JSON.parse(saved))]. *)
Definition setHighlights_parsed (v : json) : State :=
  match json_to_state v with
  | Some h => Shaped h
  | None => Foreign v
  end.

(** The effect of lines 233-245 on the state: [highlights] is the state when
    the effect runs, the result is the state after it.  [getItem] returns
    [null] for a missing key; [null] and the empty string are falsy. *)
Definition load (localStorage : gmap string string) (sectionId : string)
    (highlights : State) : State :=
  match localStorage !! storageKey sectionId with
  | Some saved =>
      if decide (saved = EmptyString) then Shaped ∅
      else
        match JSON_parse saved with
        | Some v => setHighlights_parsed v
        | None => highlights  (* catch (e): console.error, nothing else *)
        end
  | None => Shaped ∅
  end.

(** [saveHighlights] (lines 247-250): the new state and the new storage. *)
Definition saveHighlights (sectionId : string) (newHighlights : HighlightsState)
    (localStorage : gmap string string) : State * gmap string string :=
  (Shaped newHighlights,
   <[storageKey sectionId := JSON_stringify (state_to_json newHighlights)]> localStorage).

(** [clearHighlights] (lines 252-256); [confirmed] is the answer of
    [window.confirm]. *)
Definition clearHighlights (confirmed : bool) (sectionId : string)
    (highlights : State) (localStorage : gmap string string)
    : State * gmap string string :=
  if confirmed then saveHighlights sectionId ∅ localStorage
  else (highlights, localStorage).

(** ** [applyHighlight] from line 307 on

    The selection as lines 284-305 hand it to the loop: the two boundary
    nodes of the DOM range with their offsets, and the indices of the blocks
    that contain them. *)
Record Selection := mkSelection {
  startIndex : nat;
  startNode : Node;
  range_startOffset : nat;
  endIndex : nat;
  endNode : Node;
  range_endOffset : nat
}.

Section applyHighlight.

(** [section.content], and the block elements of the container by their
    [data-block-index] (separators have none). *)
Variable content : list ContentBlock.
Variable blockEls : gmap nat Node.
Variable sel : Selection.

(** Lines 313-328: [startOffset] and [endOffset] of round [i], once
    [blockEl] is found and [section.content[i]] is [block]. *)
Definition offsets (blockEl : Node) (block : ContentBlock) (i : nat) : Z * Z :=
  let startOffset := 0 in
  let endOffset := strlen (text block) in
  let startOffset :=
    if Nat.eqb i (startIndex sel) then
      let offset :=
        getBlockOffset blockEl (startNode sel) (Z.of_nat (range_startOffset sel)) in
      if negb (offset =? -1) then offset else startOffset
    else startOffset in
  let endOffset :=
    if Nat.eqb i (endIndex sel) then
      let offset :=
        getBlockOffset blockEl (endNode sel) (Z.of_nat (range_endOffset sel)) in
      if negb (offset =? -1) then offset else endOffset
    else endOffset in
  if Nat.eqb (startIndex sel) (endIndex sel) && (startOffset >? endOffset)
  then (endOffset, startOffset)
  else (startOffset, endOffset).

(** One round of the loop of lines 309-335; [None] is the [TypeError] of
    [section.content[i].text] when the section has no block [i]. *)
Definition highlightBlock (newHighlights : HighlightsState) (i : nat)
    : option HighlightsState :=
  match blockEls !! i with
  | None => Some newHighlights
  | Some blockEl =>
      match content !! i with
      | None => None
      | Some block =>
          let '(startOffset, endOffset) := offsets blockEl block i in
          if startOffset <? endOffset then
            let blockHighlights := default [] (newHighlights !! i) in
            Some (<[i := blockHighlights ++ [mkHighlight startOffset endOffset]]>
                    newHighlights)
          else Some newHighlights
      end
  end.

(** The list of block [i] when round [i] is over, from the list before. *)
Definition afterRound (before : option (list Highlight)) (i : nat)
    : option (list Highlight) :=
  match blockEls !! i, content !! i with
  | Some blockEl, Some block =>
      let '(startOffset, endOffset) := offsets blockEl block i in
      if startOffset <? endOffset
      then Some (default [] before ++ [mkHighlight startOffset endOffset])
      else before
  | _, _ => before
  end.

(** The indices that the [for] loop visits. *)
Definition visited : list nat :=
  let lo := Nat.min (startIndex sel) (endIndex sel) in
  let hi := Nat.max (startIndex sel) (endIndex sel) in
  seq lo (S hi - lo).

(** The rounds of the loop over the indices [l], from [newHighlights]; an
    exception in one round ends the handler. *)
Fixpoint rounds (l : list nat) (newHighlights : HighlightsState)
    : option HighlightsState :=
  match l with
  | [] => Some newHighlights
  | i :: l' =>
      match highlightBlock newHighlights i with
      | Some newHighlights' => rounds l' newHighlights'
      | None => None
      end
  end.

(** Lines 307-337: the [newHighlights] that reach [saveHighlights]; on
    [None] the handler has thrown before saving.  [{ ...highlights }] copies
    the state, so the loop starts from its lists. *)
Definition applyHighlight (highlights : HighlightsState) : option HighlightsState :=
  rounds visited highlights.

End applyHighlight.

(** ** The data-model invariant and the scenarios of the specification *)

(** The invariant that the specification states for a stored HighlightSet:
    every list is ascending by [start] and strictly separated, and every range
    lies within its block's text with [start < end]. *)
Definition HighlightSet_invariant (content : list ContentBlock)
    (H : HighlightsState) : Prop :=
  forall i l, H !! i = Some l ->
    Sorted by_start l /\ Sorted apart l
    /\ forall r, r ∈ l ->
         0 <= start r < end_ r
         /\ forall block, content !! i = Some block -> end_ r <= strlen (text block).

(** A block element as [renderContent] builds it for a block without
    highlights: one element with the text as its only child. *)
Definition plainBlockEl (i : nat) (t : string) : Node :=
  Element (2 * i) [TextNode (2 * i + 1) t].

Definition fox : string := "the quick brown fox".

(** A section with the one block of scenarios A to D, and a selection from
    offset [a] to offset [b] of its text node. *)
Definition fox_content : list ContentBlock := [mkBlock paragraph fox].
Definition fox_blockEls : gmap nat Node := {[ 0%nat := plainBlockEl 0 fox ]}.
Definition fox_selection (a b : nat) : Selection :=
  mkSelection 0 (TextNode 1 fox) a 0 (TextNode 1 fox) b.

(** The element that React builds for block [i] from the [switch] of
    [renderContent] (lines 351-402) and the parts of [HighlightedText]: one
    [<span>] per part, with the part's text as its text node (an empty text
    gives no text node); in a [quote] block a text node with the quotation
    mark before the spans and one after them (lines 364-369); for a
    [separator] three empty [<div>]s and no text (lines 376-383; this element
    carries no [data-block-index]). *)
Definition renderedBlockEl (i : nat) (type : ContentType) (parts : list Segment)
    : Node :=
  let spans :=
    imap (fun k p =>
            Element (100 * i + 2 * k + 1)
              (if decide (seg_text p = EmptyString) then []
               else [TextNode (100 * i + 2 * k + 2) (seg_text p)]))
         parts in
  let mark k := TextNode (100 * i + 2 * length parts + k) (String "034" EmptyString) in
  Element (100 * i)
    match type with
    | separator =>
        [Element (100 * i + 1) []; Element (100 * i + 2) []; Element (100 * i + 3) []]
    | quote => [mark 1%nat] ++ spans ++ [mark 2%nat]
    | _ => spans
    end.

(** The block of scenario B once the range 4-9 is stored and rendered: the
    spans [the ], [quick] and [ brown fox]; and a selection from offset [a] of
    the text of the second span to offset [b] of the text of the third. *)
Definition fox_rendered_blockEls : gmap nat Node :=
  {[ 0%nat := renderedBlockEl 0 paragraph
                (HighlightedText fox (Some [mkHighlight 4 9])).2 ]}.
Definition fox_rendered_selection (a b : nat) : Selection :=
  mkSelection 0 (TextNode 4 "quick") a 0 (TextNode 6 " brown fox") b.

(** A quote block without highlights: [renderContent] puts a quotation mark
    before and after the text, each a text node of the block element. *)
Definition quote_content : list ContentBlock := [mkBlock quote "abc"].
Definition quote_blockEls : gmap nat Node :=
  {[ 0%nat := Element 0 [TextNode 1 (String "034" EmptyString); TextNode 2 "abc";
                         TextNode 3 (String "034" EmptyString)] ]}.
Definition quote_selection : Selection :=
  mkSelection 0 (TextNode 2 "abc") 0 0 (TextNode 3 (String "034" EmptyString)) 1.

(** A section with a separator between two paragraphs; the separator is
    rendered without [data-block-index], so it has no block element. *)
Definition sep_content : list ContentBlock :=
  [mkBlock paragraph "abc"; mkBlock separator "***"; mkBlock paragraph "def"].
Definition sep_blockEls : gmap nat Node :=
  {[ 0%nat := plainBlockEl 0 "abc"; 2%nat := plainBlockEl 2 "def" ]}.
Definition sep_selection : Selection :=
  mkSelection 0 (TextNode 1 "abc") 1 2 (TextNode 5 "def") 2.

(** ** The front of [applyHighlight] (lines 284-305)

    A node on the way from a boundary node of the selection up to the
    document: its identity, its [nodeType] and its [data-block-index]
    attribute when it has one. *)
Record Ancestor := mkAncestor {
  anc_id : nat;
  nodeType : nat;
  dataBlockIndex : option string
}.

(** [curr.nodeType === 1 && curr.hasAttribute('data-block-index')]. *)
Definition is_wrapper (curr : Ancestor) : bool :=
  (nodeType curr =? 1)%nat && bool_decide (is_Some (dataBlockIndex curr)).

(** [findBlockWrapper] (lines 288-297).  [chain] is [node],
    [node.parentNode], its parent, and so on until [null]; [container] is the
    identity of [containerRef.current], [None] when the ref is [null]. *)
Fixpoint findBlockWrapper (container : option nat) (chain : list Ancestor)
    : option Ancestor :=
  match chain with
  | [] => None
  | curr :: parents =>
      if decide (Some (anc_id curr) = container) then None
      else if is_wrapper curr then Some curr
      else findBlockWrapper container parents
  end.

(** The white space that [parseInt] skips, as far as one-byte characters go:
    tab, line feed, vertical tab, form feed, carriage return, space and the
    no-break space. *)
Definition is_StrWhiteSpaceChar (c : ascii) : bool :=
  match c with
  | "009" | "010" | "011" | "012" | "013" | " " | "160" => true
  | _ => false
  end%char.

Fixpoint trimStart (s : string) : string :=
  match s with
  | String c r => if is_StrWhiteSpaceChar c then trimStart r else s
  | EmptyString => s
  end.

Definition hex_digit (c : ascii) : option N :=
  match digit_of_ascii c with
  | Some d => Some (N.of_uint (d Nil))
  | None =>
      match c with
      | "a" | "A" => Some 10 | "b" | "B" => Some 11 | "c" | "C" => Some 12
      | "d" | "D" => Some 13 | "e" | "E" => Some 14 | "f" | "F" => Some 15
      | _ => None
      end%char%N
  end.

(** The value of the longest run of hexadecimal digits at the front of [s];
    [acc] is [None] as long as no digit has been read. *)
Fixpoint scan_hex (s : string) (acc : option N) : option N :=
  match s with
  | String c r =>
      match hex_digit c with
      | Some d => scan_hex r (Some (16 * default 0 acc + d)%N)
      | None => acc
      end
  | EmptyString => acc
  end.

(** [parseInt(s)] without a radix: white space, a sign, [0x] or [0X] for
    base 16, then the longest run of digits; [None] is [NaN].  (The built-in
    rounds a value that a double does not hold, beyond 2^53.) *)
Definition parseInt (s : string) : option Z :=
  let s := trimStart s in
  let '(negative, s) :=
    match s with
    | String "-"%char r => (true, r)
    | String "+"%char r => (false, r)
    | _ => (false, s)
    end in
  let magnitude :=
    match s with
    | String "0"%char (String "x"%char r) | String "0"%char (String "X"%char r) =>
        scan_hex r None
    | _ =>
        match scan_digits s with
        | (Nil, _) => None
        | (u, _) => Some (N.of_uint u)
        end
    end in
  match magnitude with
  | Some m => Some (if negative then - Z.of_N m else Z.of_N m)
  | None => None
  end.

(** [parseInt(block.getAttribute('data-block-index') || '0')]. *)
Definition blockIndex (block : Ancestor) : option Z :=
  parseInt (match dataBlockIndex block with
            | Some s => if decide (s = EmptyString) then "0" else s
            | None => "0"
            end).

(** Lines 299-305: the two block indices, or [None] when the handler returns
    at line 302 because an endpoint lies in no block. *)
Definition selectionIndices (container : option nat)
    (startChain endChain : list Ancestor) : option (option Z * option Z) :=
  match findBlockWrapper container startChain with
  | Some startBlock =>
      match findBlockWrapper container endChain with
      | Some endBlock => Some (blockIndex startBlock, blockIndex endBlock)
      | None => None
      end
  | None => None
  end.

(** The attribute that [renderContent] gives block [index] (line 348):
    React writes the number as a string. *)
Definition commonProps_dataBlockIndex (index : nat) : string := key_of_index index.

(** ** The application shell (App.tsx): moving between sections *)

Module App.

(** [interface Section] (types.ts). *)
Record Section_ := mkSection {
  id : string;
  title : string;
  subtitle : option string;
  label : option string;
  indexLabel : option string;
  content : list ContentBlock;
  audioSrc : option string
}.

(** [l.findIndex(s => s.id === currentSectionId)], counting from [k]: [-1]
    when no section has the id. *)
Fixpoint findIndex_from (l : list Section_) (currentSectionId : string) (k : Z) : Z :=
  match l with
  | [] => -1
  | s :: l' =>
      if decide (id s = currentSectionId) then k
      else findIndex_from l' currentSectionId (k + 1)
  end.

(** [SECTIONS[k]]: [undefined] ([None]) outside the array. *)
Definition at_index (SECTIONS : list Section_) (k : Z) : option Section_ :=
  if k <? 0 then None else SECTIONS !! Z.to_nat k.

Definition currentIndex (SECTIONS : list Section_) (currentSectionId : string) : Z :=
  findIndex_from SECTIONS currentSectionId 0.

Definition isLast (SECTIONS : list Section_) (currentSectionId : string) : bool :=
  currentIndex SECTIONS currentSectionId =? Z.of_nat (length SECTIONS) - 1.

(** [handleNext]: the [currentSectionId] afterwards; [None] would be the
    [TypeError] of reading [.id] of [undefined]. *)
Definition handleNext (SECTIONS : list Section_) (currentSectionId : string)
    : option string :=
  if negb (isLast SECTIONS currentSectionId)
  then id <$> at_index SECTIONS (currentIndex SECTIONS currentSectionId + 1)
  else Some currentSectionId.

(** [handleKeyDown] for a key: [ArrowRight] is [handleNext], [ArrowLeft] goes
    one section back when [currentIndex > 0], any other key does nothing. *)
Definition handleKeyDown (SECTIONS : list Section_) (key : string)
    (currentSectionId : string) : option string :=
  if decide (key = "ArrowRight"%string) then handleNext SECTIONS currentSectionId
  else if decide (key = "ArrowLeft"%string) then
    if currentIndex SECTIONS currentSectionId >? 0
    then id <$> at_index SECTIONS (currentIndex SECTIONS currentSectionId - 1)
    else Some currentSectionId
  else Some currentSectionId.

End App.

(** ** Vocabulary of the further properties *)

(** Position [p] of a text lies in the range [h], and in one of the ranges
    [hs]. *)
Definition covers (h : Highlight) (p : Z) : bool := (start h <=? p) && (p <? end_ h).

Definition covered (hs : list Highlight) (p : Z) : bool :=
  existsb (fun h => covers h p) hs.

(** For the positions [a], [a+1], ... below [b], whether a range covers
    them. *)
Definition coverage (hs : list Highlight) (a b : Z) : list bool :=
  covered hs <$> seqZ a (b - a).

(** For each character that a list of parts displays, in order, whether its
    part is highlighted. *)
Definition mask (parts : list Segment) : list bool :=
  foldr (fun p acc => replicate (String.length (seg_text p)) (highlighted p) ++ acc)
        [] parts.

(** The text of a list of nodes, one after the other. *)
Definition textOf (nodes : list Node) : string :=
  foldr (fun n acc => textContent n +:+ acc) EmptyString nodes.

(** Line 454, [section.content.map((block, index) => renderContent(block,
    index))]: one call of [renderContent] per block, in order, each on the
    state as the calls before it have left it; the result is the state after
    the render and the parts of every block. *)
Fixpoint renderBlocks (blocks : list ContentBlock) (index : nat)
    (highlights : HighlightsState) : HighlightsState * list (list Segment) :=
  match blocks with
  | [] => (highlights, [])
  | block :: rest =>
      let '(highlights, parts) := renderContent highlights block index in
      let '(highlights, more) := renderBlocks rest (S index) highlights in
      (highlights, parts :: more)
  end.

Definition render (content : list ContentBlock) (highlights : HighlightsState)
    : HighlightsState * list (list Segment) :=
  renderBlocks content 0 highlights.

(** A click on MARK that runs to its end: [applyHighlight] hands
    [newHighlights] to [saveHighlights], whose [setHighlights] makes React
    render the section again, on the objects of [newHighlights]; the result is
    the state as that render leaves it. *)
Definition onMark (content : list ContentBlock) (blockEls : gmap nat Node)
    (sel : Selection) (highlights : HighlightsState) : option HighlightsState :=
  match applyHighlight content blockEls sel highlights with
  | Some newHighlights => Some (render content newHighlights).1
  | None => None
  end.

(** * Properties *)

(** ** OffsetResolver *)

Section OffsetResolver.

Lemma textLength_app l1 l2 : textLength (l1 ++ l2) = textLength l1 + textLength l2.
Proof. induction l1 as [|n l1 IH]; simpl; [done | rewrite IH; lia]. Qed.

Lemma textContent_length_nonneg n : 0 <= textContent_length n.
Proof. unfold textContent_length, strlen. lia. Qed.

Lemma textLength_nonneg l : 0 <= textLength l.
Proof.
  induction l as [|n l IH]; simpl; [lia|].
  pose proof (textContent_length_nonneg n). lia.
Qed.

(** The loop skips every node whose identity differs from the target's. *)
Lemma walk_skip pre target offset acc rest :
  Forall (fun n => node_id n <> node_id target) pre ->
  walk (pre ++ rest) target offset acc = walk rest target offset (acc + textLength pre).
Proof.
  revert acc. induction pre as [|n pre IH]; intros acc Hpre; simpl.
  - f_equal. lia.
  - inversion Hpre as [|? ? Hn Hrest]; subst.
    apply Nat.eqb_neq in Hn. rewrite Hn, IH by done. f_equal. lia.
Qed.

Lemma walk_absent nodes target offset acc :
  Forall (fun n => node_id n <> node_id target) nodes ->
  walk nodes target offset acc = -1.
Proof.
  intros H. rewrite <- (app_nil_r nodes), walk_skip by done. done.
Qed.

(** The resolver at the [k]-th text node of the walk. *)
Lemma getBlockOffset_at root target offset k :
  NoDup (node_id <$> createTreeWalker root) ->
  createTreeWalker root !! k = Some target ->
  getBlockOffset root target offset
  = textLength (take k (createTreeWalker root)) + offset.
Proof.
  intros Hnd Hk. unfold getBlockOffset.
  rewrite <- (take_drop_middle _ _ _ Hk) at 1.
  rewrite walk_skip.
  - simpl. rewrite Nat.eqb_refl. lia.
  - apply Forall_forall. intros n Hn Heq.
    apply list_elem_of_lookup in Hn as [j Hj].
    rewrite lookup_take_Some in Hj. destruct Hj as [Hj Hlt].
    assert (j = k) as ->; [|lia].
    eapply NoDup_lookup; [exact Hnd| |].
    + rewrite list_lookup_fmap, Hj. simpl. rewrite Heq. done.
    + rewrite list_lookup_fmap, Hk. done.
Qed.

Lemma textLength_take_le k l target :
  l !! k = Some target ->
  textLength (take k l) + textContent_length target <= textLength l.
Proof.
  intros Hk. rewrite <- (take_drop_middle _ _ _ Hk) at 2.
  rewrite textLength_app. simpl.
  pose proof (textLength_nonneg (drop (S k) l)). lia.
Qed.

End OffsetResolver.

(** C4.  For a text node [target] that the walk under [root] reaches at
    position [k] (node objects being distinct), and an offset within the
    node's text, [getBlockOffset] returns the total length of the text nodes
    before position [k] plus the offset, a value between 0 and the total text
    length under [root]; for a target that is not among the text nodes under
    [root] it returns [-1]. *)
Theorem getBlockOffset_correct (root target : Node) (offset : Z) :
  (forall k,
     NoDup (node_id <$> createTreeWalker root) ->
     createTreeWalker root !! k = Some target ->
     0 <= offset <= textContent_length target ->
     getBlockOffset root target offset
       = textLength (take k (createTreeWalker root)) + offset
     /\ 0 <= getBlockOffset root target offset <= totalTextLength root)
  /\ (node_id target ∉ node_id <$> createTreeWalker root ->
      getBlockOffset root target offset = -1).
Proof.
  split.
  - intros k Hnd Hk Hoff.
    rewrite (getBlockOffset_at root target offset k Hnd Hk). split; [done|].
    pose proof (textLength_nonneg (take k (createTreeWalker root))).
    pose proof (textLength_take_le k _ _ Hk). unfold totalTextLength. lia.
  - intros Hnot. apply walk_absent, Forall_forall.
    intros n Hn Heq. apply Hnot. rewrite <- Heq.
    apply list_elem_of_fmap. eauto.
Qed.

(** ** The merge pass: the store model and the value model agree *)

Section MergePass.

Implicit Types (objs : list Highlight) (l rest merged : list nat).

Lemma fmap_deref_seq objs : deref objs <$> seq 0 (length objs) = objs.
Proof.
  apply list_eq. intros i. rewrite list_lookup_fmap.
  destruct (decide (i < length objs)%nat) as [Hlt|Hge].
  - rewrite lookup_seq_lt by done. simpl. unfold deref.
    symmetry. by apply list_lookup_lookup_total_lt.
  - rewrite lookup_seq_ge by lia. simpl. symmetry. apply lookup_ge_None. lia.
Qed.

Lemma fmap_insert_ref objs r l :
  deref objs <$> insert_ref objs r l
  = insert_by_start (deref objs r) (deref objs <$> l).
Proof.
  induction l as [|r' l IH]; [done|].
  cbn [insert_ref]. rewrite fmap_cons. cbn [insert_by_start].
  destruct (_ <=? 0); rewrite !fmap_cons; [done | by rewrite IH].
Qed.

Lemma fmap_sort_refs objs l :
  deref objs <$> sort_refs objs l = sort_by_start (deref objs <$> l).
Proof.
  induction l as [|r l IH]; [done|].
  change (sort_refs objs (r :: l)) with (insert_ref objs r (sort_refs objs l)).
  rewrite fmap_insert_ref, IH. done.
Qed.

Lemma insert_ref_Permutation objs r l : insert_ref objs r l ≡ₚ r :: l.
Proof.
  induction l as [|r' l IH]; simpl; [done|].
  destruct (_ <=? 0); [done|]. rewrite IH. apply perm_swap.
Qed.

Lemma sort_refs_Permutation objs l : sort_refs objs l ≡ₚ l.
Proof.
  induction l as [|r l IH]; [done|].
  change (sort_refs objs (r :: l)) with (insert_ref objs r (sort_refs objs l)).
  by rewrite insert_ref_Permutation, IH.
Qed.

Lemma sorted_NoDup objs : NoDup (sorted objs).
Proof.
  unfold sorted. rewrite sort_refs_Permutation. apply NoDup_seq.
Qed.

Lemma sorted_lt objs r : r ∈ sorted objs -> (r < length objs)%nat.
Proof.
  unfold sorted. rewrite sort_refs_Permutation, elem_of_seq. lia.
Qed.

Lemma fmap_deref_insert_notin objs r h l :
  r ∉ l -> deref (<[r := h]> objs) <$> l = deref objs <$> l.
Proof.
  intros Hr. apply list_fmap_ext. intros i r' Hi. unfold deref.
  apply list_lookup_total_insert_ne. intros ->.
  apply Hr. eapply list_elem_of_lookup_2; eauto.
Qed.

Lemma deref_insert_eq objs r h :
  (r < length objs)%nat -> deref (<[r := h]> objs) r = h.
Proof. intros. unfold deref. by apply list_lookup_total_insert_eq. Qed.

(** The store loop, read through the final store, is the value loop. *)
Lemma sweep_sweep_values rest : forall objs current merged,
  NoDup (merged ++ current :: rest) ->
  Forall (fun r => (r < length objs)%nat) (current :: rest) ->
  deref (sweep objs current rest merged).1 <$> (sweep objs current rest merged).2
  = (deref objs <$> merged)
    ++ sweep_values (deref objs current) (deref objs <$> rest).
Proof.
  induction rest as [|next rest IH]; intros objs current merged Hnd Hlt.
  - cbn [sweep sweep_values fst snd]. by rewrite fmap_app.
  - apply NoDup_app in Hnd as (Hm & Hdisj & Hcr).
    apply NoDup_cons in Hcr as [Hc Hnr]. apply NoDup_cons in Hnr as [Hn Hr].
    apply Forall_cons in Hlt as [Hlt Hrest].
    apply Forall_cons in Hrest as [Hnext Hrest].
    cbn [sweep]. rewrite fmap_cons. cbn [sweep_values].
    destruct (_ >=? _).
    + rewrite IH.
      * rewrite deref_insert_eq by done.
        rewrite !fmap_deref_insert_notin; [done| |].
        -- intros Hin. apply Hc. by right.
        -- intros Hin. eapply Hdisj; [exact Hin | by left].
      * apply NoDup_app. split_and!; [done| |].
        -- intros x Hx Hx'. apply (Hdisj x Hx).
           apply elem_of_cons in Hx' as [->|Hx']; [by left | by do 2 right].
        -- apply NoDup_cons. split; [|done]. intros Hin. apply Hc. by right.
      * rewrite length_insert. by apply Forall_cons.
    + rewrite IH.
      * rewrite fmap_app, <- app_assoc. done.
      * rewrite <- app_assoc. apply NoDup_app. split_and!; [done| |].
        -- intros x Hx Hx'. by apply (Hdisj x Hx).
        -- apply NoDup_cons. split; [done | by apply NoDup_cons].
      * by apply Forall_cons.
Qed.

(** [RangeMerger], computed in the store, is [merge_values]. *)
Lemma RangeMerger_values x : RangeMerger x = merge_values x.
Proof.
  unfold RangeMerger, merge_values, mergePass.
  assert (sort_by_start x = deref x <$> sorted x) as ->.
  { unfold sorted. by rewrite fmap_sort_refs, fmap_deref_seq. }
  pose proof (sorted_NoDup x) as Hnd.
  assert (Forall (fun r => (r < length x)%nat) (sorted x)) as Hlt.
  { apply Forall_forall. intros r. apply sorted_lt. }
  destruct (sorted x) as [|first rest]; [done|].
  rewrite fmap_cons.
  pose proof (sweep_sweep_values rest x first [] Hnd Hlt) as H.
  destruct (sweep x first rest []) as [objs merged]. exact H.
Qed.

(** *** A list that is already merged

    On a stored list that is ascending and separated the pass writes
    nothing. *)
Lemma sort_refs_sorted objs l :
  Sorted by_start (deref objs <$> l) -> sort_refs objs l = l.
Proof.
  induction l as [|r l IH]; intros Hs; [done|].
  rewrite fmap_cons in Hs. apply Sorted_inv in Hs as [Hs Hhd].
  change (sort_refs objs (r :: l)) with (insert_ref objs r (sort_refs objs l)).
  rewrite IH by done. destruct l as [|r' l]; [done|].
  rewrite fmap_cons in Hhd. apply HdRel_inv in Hhd. unfold by_start in Hhd.
  cbn [insert_ref]. destruct (Z.leb_spec (start (deref objs r) - start (deref objs r')) 0);
    [done|lia].
Qed.

Lemma sweep_apart rest : forall objs current merged,
  Sorted apart (deref objs <$> current :: rest) ->
  sweep objs current rest merged = (objs, merged ++ current :: rest).
Proof.
  induction rest as [|next rest IH]; intros objs current merged Hs; [done|].
  rewrite fmap_cons in Hs. apply Sorted_inv in Hs as [Hs Hhd].
  rewrite fmap_cons in Hhd. apply HdRel_inv in Hhd. unfold apart in Hhd.
  cbn [sweep]. destruct (Z.geb_spec (end_ (deref objs current)) (start (deref objs next)));
    [lia|].
  rewrite IH by done. by rewrite <- app_assoc.
Qed.

Lemma mergePass_merged hs :
  Sorted by_start hs -> Sorted apart hs ->
  mergePass hs = (hs, seq 0 (length hs)).
Proof.
  intros Hs Ha. unfold mergePass, sorted.
  rewrite sort_refs_sorted by (by rewrite fmap_deref_seq).
  destruct (seq 0 (length hs)) as [|first rest] eqn:Hseq.
  - done.
  - apply sweep_apart. rewrite <- Hseq. by rewrite fmap_deref_seq.
Qed.

End MergePass.

(** ** The value loop: ordering, separation, fixed points *)

Section MergeValues.

Implicit Types (h c : Highlight) (l rest : list Highlight).

Lemma insert_by_start_Permutation h l : insert_by_start h l ≡ₚ h :: l.
Proof.
  induction l as [|h' l IH]; simpl; [done|].
  destruct (_ <=? 0); [done|]. rewrite IH. apply perm_swap.
Qed.

Lemma sort_by_start_Permutation l : sort_by_start l ≡ₚ l.
Proof.
  induction l as [|h l IH]; [done|].
  change (sort_by_start (h :: l)) with (insert_by_start h (sort_by_start l)).
  by rewrite insert_by_start_Permutation, IH.
Qed.

Lemma insert_by_start_HdRel c h l :
  by_start c h -> HdRel by_start c l -> HdRel by_start c (insert_by_start h l).
Proof.
  intros Hch Hcl. destruct l as [|h' l]; simpl; [by constructor|].
  destruct (_ <=? 0); constructor; [done|]. by inversion Hcl.
Qed.

Lemma insert_by_start_Sorted h l :
  Sorted by_start l -> Sorted by_start (insert_by_start h l).
Proof.
  induction 1 as [|h' l Hl IH Hhd]; simpl; [by repeat constructor|].
  destruct (Z.leb_spec (start h - start h') 0) as [Hle|Hgt].
  - constructor; [by constructor|]. constructor. unfold by_start. lia.
  - constructor; [done|]. apply insert_by_start_HdRel; [|done].
    unfold by_start. lia.
Qed.

Lemma sort_by_start_Sorted l : Sorted by_start (sort_by_start l).
Proof.
  induction l as [|h l IH]; [constructor|].
  change (sort_by_start (h :: l)) with (insert_by_start h (sort_by_start l)).
  by apply insert_by_start_Sorted.
Qed.

(** Sorting a list that is already in order changes nothing. *)
Lemma sort_by_start_id l : Sorted by_start l -> sort_by_start l = l.
Proof.
  induction 1 as [|h l Hl IH Hhd]; [done|].
  change (sort_by_start (h :: l)) with (insert_by_start h (sort_by_start l)).
  rewrite IH. destruct Hhd as [|h' l Hh]; simpl; [done|].
  unfold by_start in Hh. destruct (Z.leb_spec (start h - start h') 0); [done|lia].
Qed.

(** The first range of the sweep keeps the accumulator's [start]. *)
Lemma sweep_values_head rest : forall c,
  exists e tl, sweep_values c rest = mkHighlight (start c) e :: tl /\ end_ c <= e.
Proof.
  induction rest as [|next rest IH]; intros c; simpl.
  - exists (end_ c), []. by destruct c.
  - destruct (_ >=? _).
    + destruct (IH {| start := start c; end_ := Z.max (end_ c) (end_ next) |})
        as (e & tl & -> & He). simpl in *. exists e, tl. split; [done|lia].
    + exists (end_ c), (sweep_values next rest). by destruct c.
Qed.

Lemma sweep_values_apart rest : forall c, Sorted apart (sweep_values c rest).
Proof.
  induction rest as [|next rest IH]; intros c; simpl; [by repeat constructor|].
  destruct (Z.geb_spec (end_ c) (start next)) as [Hge|Hlt]; [apply IH|].
  constructor; [apply IH|].
  destruct (sweep_values_head rest next) as (e & tl & -> & _).
  constructor. done.
Qed.

Lemma sweep_values_by_start rest : forall c,
  Sorted by_start (c :: rest) -> Sorted by_start (sweep_values c rest).
Proof.
  induction rest as [|next rest IH]; intros c Hs; simpl; [by repeat constructor|].
  apply Sorted_inv in Hs as [Hs Hc]. apply HdRel_inv in Hc.
  pose proof Hs as Hs'. apply Sorted_inv in Hs' as [Hr Hn].
  destruct (_ >=? _).
  - apply IH. constructor; [done|].
    destruct Hn as [|h rest Hh]; constructor. unfold by_start in *. simpl. lia.
  - constructor; [by apply IH|].
    destruct (sweep_values_head rest next) as (e & tl & -> & _).
    constructor. done.
Qed.

Lemma sweep_values_Forall (P : Highlight -> Prop) rest : forall c,
  (forall a b, P a -> P b -> P {| start := start a; end_ := Z.max (end_ a) (end_ b) |}) ->
  P c -> Forall P rest -> Forall P (sweep_values c rest).
Proof.
  induction rest as [|next rest IH]; intros c Hmax Hc Hrest; simpl;
    [by repeat constructor|].
  apply Forall_cons in Hrest as [Hn Hrest].
  destruct (_ >=? _); [by apply IH; auto|].
  constructor; [done | by apply IH].
Qed.

(** A separated list goes through the sweep unchanged. *)
Lemma sweep_values_id rest : forall c,
  Sorted apart (c :: rest) -> sweep_values c rest = c :: rest.
Proof.
  induction rest as [|next rest IH]; intros c Hs; simpl; [done|].
  apply Sorted_inv in Hs as [Hs Hc]. apply HdRel_inv in Hc. unfold apart in Hc.
  destruct (Z.geb_spec (end_ c) (start next)); [lia|].
  by rewrite IH.
Qed.

Lemma merge_values_apart l : Sorted apart (merge_values l).
Proof.
  unfold merge_values. destruct (sort_by_start l); [constructor|].
  apply sweep_values_apart.
Qed.

Lemma merge_values_by_start l : Sorted by_start (merge_values l).
Proof.
  unfold merge_values. pose proof (sort_by_start_Sorted l) as Hs.
  destruct (sort_by_start l); [constructor|]. by apply sweep_values_by_start.
Qed.

Lemma merge_values_Forall (P : Highlight -> Prop) l :
  (forall a b, P a -> P b -> P {| start := start a; end_ := Z.max (end_ a) (end_ b) |}) ->
  Forall P l -> Forall P (merge_values l).
Proof.
  intros Hmax Hl. unfold merge_values.
  rewrite <- (sort_by_start_Permutation l) in Hl.
  destruct (sort_by_start l); [constructor|].
  apply Forall_cons in Hl as [??]. by apply sweep_values_Forall.
Qed.

Lemma merge_values_idempotent l : merge_values (merge_values l) = merge_values l.
Proof.
  pose proof (merge_values_apart l) as Ha.
  pose proof (merge_values_by_start l) as Hs.
  unfold merge_values at 1. rewrite (sort_by_start_id _ Hs).
  destruct (merge_values l); [done|]. by apply sweep_values_id.
Qed.

(** [Sorted] read through indices. *)
Lemma Sorted_lookup {A} (R : relation A) (l : list A) i a b :
  Sorted R l -> l !! i = Some a -> l !! S i = Some b -> R a b.
Proof.
  intros Hs. revert i. induction Hs as [|x l Hl IH Hhd]; intros i Ha Hb; [done|].
  destruct i as [|i]; simpl in *.
  - simplify_eq. destruct Hhd; simplify_eq/=. done.
  - eauto.
Qed.

End MergeValues.

(** ** RangeMerger: the claims *)

(** C6, as the code has it.  For every input list the output of RangeMerger
    is ascending by [start] and strictly separated (each range ends before the
    next one starts), the empty input gives the empty output, and every output
    range has [start < end] provided every input range has: the pass keeps a
    degenerate input range that nothing absorbs. *)
Theorem RangeMerger_sorted_separated (x : list Highlight) :
  (forall i a b,
     RangeMerger x !! i = Some a -> RangeMerger x !! S i = Some b ->
     start a <= start b /\ end_ a < start b)
  /\ ((forall h, h ∈ x -> start h < end_ h) ->
      forall h, h ∈ RangeMerger x -> start h < end_ h)
  /\ RangeMerger [] = [].
Proof.
  rewrite !RangeMerger_values. split_and!.
  - intros i a b Ha Hb. split.
    + exact (Sorted_lookup by_start _ i a b (merge_values_by_start x) Ha Hb).
    + exact (Sorted_lookup apart _ i a b (merge_values_apart x) Ha Hb).
  - intros Hx. apply Forall_forall.
    apply (merge_values_Forall (fun h => start h < end_ h)).
    + simpl. lia.
    + by apply Forall_forall.
  - done.
Qed.

Lemma RangeMerger_sorted_separated_witness :
  RangeMerger [mkHighlight 7 15; mkHighlight 4 9; mkHighlight 20 22]
    = [mkHighlight 4 15; mkHighlight 20 22]
  /\ start (mkHighlight 4 15) < end_ (mkHighlight 4 15).
Proof.
  split; [reflexivity|].
  apply (RangeMerger_sorted_separated
           [mkHighlight 7 15; mkHighlight 4 9; mkHighlight 20 22]).
  - intros h Hh. repeat (apply elem_of_cons in Hh as [->|Hh]; [simpl; lia|]).
    by apply elem_of_nil in Hh.
  - by left.
Defined.

(** C6 as stated fails: a degenerate input range comes out as it went in. *)
Lemma RangeMerger_degenerate_output :
  RangeMerger [mkHighlight 5 3] = [mkHighlight 5 3]
  /\ ~ (forall x h, h ∈ RangeMerger x -> start h < end_ h).
Proof.
  split; [reflexivity|].
  intros H. specialize (H [mkHighlight 5 3] (mkHighlight 5 3)).
  assert (mkHighlight 5 3 ∈ RangeMerger [mkHighlight 5 3]) as Hin by (by left).
  apply H in Hin. simpl in Hin. lia.
Qed.

(** C7.  RangeMerger is idempotent: merging a merged list returns it. *)
Theorem RangeMerger_idempotent (x : list Highlight) :
  RangeMerger (RangeMerger x) = RangeMerger x.
Proof. rewrite !RangeMerger_values. apply merge_values_idempotent. Qed.

(** ** Slices of a text *)

Section Slices.

Implicit Types (s t : string).

Lemma str_app_cons a s t : String a s +:+ t = String a (s +:+ t).
Proof. reflexivity. Qed.

Lemma str_app_nil_r s : s +:+ EmptyString = s.
Proof. induction s as [|a s IH]; [done|]. by rewrite str_app_cons, IH. Qed.

Lemma str_app_assoc s t u : (s +:+ t) +:+ u = s +:+ (t +:+ u).
Proof. induction s as [|a s IH]; [done|]. by rewrite !str_app_cons, IH. Qed.

Lemma substring_nil n s : substring n 0 s = EmptyString.
Proof. revert n. induction s as [|a s IH]; intros [|n]; simpl; auto. Qed.

Lemma substring_full s : substring 0 (String.length s) s = s.
Proof. induction s as [|a s IH]; simpl; [done | by rewrite IH]. Qed.

Lemma substring_split s : forall n m1 m2,
  substring n m1 s +:+ substring (n + m1) m2 s = substring n (m1 + m2) s.
Proof.
  induction s as [|a s IH]; intros n m1 m2.
  - destruct n, m1, m2; reflexivity.
  - destruct n as [|n]; [destruct m1 as [|m1]|].
    + reflexivity.
    + change (substring 0 (S m1) (String a s)) with (String a (substring 0 m1 s)).
      change (substring (0 + S m1) m2 (String a s)) with (substring (0 + m1) m2 s).
      change (substring 0 (S m1 + m2) (String a s))
        with (String a (substring 0 (m1 + m2) s)).
      by rewrite str_app_cons, IH.
    + change (substring (S n) m1 (String a s)) with (substring n m1 s).
      change (substring (S n + m1) m2 (String a s)) with (substring (n + m1) m2 s).
      change (substring (S n) (m1 + m2) (String a s)) with (substring n (m1 + m2) s).
      apply IH.
Qed.

(** Within the text, [slice] is [substring]. *)
Lemma slice_inside t a b :
  0 <= a -> a <= b -> b <= strlen t ->
  slice t a b = substring (Z.to_nat a) (Z.to_nat (b - a)) t.
Proof.
  intros Ha Hab Hb. unfold slice.
  destruct (Z.ltb_spec a 0); [lia|]. destruct (Z.ltb_spec b 0); [lia|].
  rewrite !Z.min_l by lia. by rewrite Z.max_l by lia.
Qed.

Lemma slice_empty t a : 0 <= a <= strlen t -> slice t a a = EmptyString.
Proof.
  intros. rewrite slice_inside by lia. rewrite Z.sub_diag. apply substring_nil.
Qed.

Lemma slice_app t a b c :
  0 <= a -> a <= b -> b <= c -> c <= strlen t ->
  slice t a b +:+ slice t b c = slice t a c.
Proof.
  intros. rewrite !slice_inside by lia.
  replace (Z.to_nat b) with (Z.to_nat a + Z.to_nat (b - a))%nat by lia.
  rewrite substring_split. f_equal. lia.
Qed.

Lemma slice_full t : slice t 0 (strlen t) = t.
Proof.
  rewrite slice_inside by (unfold strlen; lia).
  rewrite Z.sub_0_r. unfold strlen. rewrite Nat2Z.id. apply substring_full.
Qed.

Lemma rendered_text_app p q :
  rendered_text (p ++ q) = rendered_text p +:+ rendered_text q.
Proof.
  induction p as [|x p IH]; [done|].
  simpl. by rewrite IH, str_app_assoc.
Qed.

Lemma clamp_range t v : 0 <= clamp t v <= strlen t.
Proof. unfold clamp, strlen. lia. Qed.

Lemma clamp_mono t v w : v <= w -> clamp t v <= clamp t w.
Proof. unfold clamp. lia. Qed.

(** The loop over [merged] extends the rendered text from [lastIndex] to the
    clamped end of the last range, when the ranges are separated and none of
    them is reversed. *)
Lemma forEach_merged_text t merged : forall lastIndex parts,
  Sorted apart merged ->
  Forall (fun h => start h <= end_ h) merged ->
  0 <= lastIndex <= strlen t ->
  (forall h, head merged = Some h -> lastIndex <= clamp t (start h)) ->
  lastIndex <= (forEach_merged t merged lastIndex parts).1 <= strlen t
  /\ rendered_text (forEach_merged t merged lastIndex parts).2
     = rendered_text parts
       +:+ slice t lastIndex (forEach_merged t merged lastIndex parts).1.
Proof.
  induction merged as [|h merged IH]; intros lastIndex parts Hs Hok Hl Hhd.
  - simpl. split; [lia|]. by rewrite slice_empty, str_app_nil_r.
  - cbn [forEach_merged]. fold (clamp t (start h)). fold (clamp t (end_ h)).
    apply Sorted_inv in Hs as [Hs Hh]. apply Forall_cons in Hok as [Hse Hok].
    pose proof (clamp_range t (start h)). pose proof (clamp_range t (end_ h)).
    pose proof (clamp_mono t _ _ Hse).
    specialize (Hhd h eq_refl).
    match goal with |- context [forEach_merged t merged ?L ?P] =>
      destruct (IH L P) as [Hfst Htxt]; [done|done|lia| |] end.
    { intros h' Hh'. destruct merged as [|h'' merged]; simplify_eq/=.
      apply HdRel_inv in Hh. unfold apart in Hh. apply clamp_mono. lia. }
    split; [lia|]. rewrite Htxt.
    rewrite rendered_text_app. simpl. rewrite str_app_nil_r.
    destruct (Z.gtb_spec (clamp t (start h)) lastIndex).
    + rewrite rendered_text_app. simpl. rewrite str_app_nil_r.
      rewrite !str_app_assoc. f_equal.
      rewrite <- str_app_assoc, slice_app by lia. apply slice_app; lia.
    + assert (lastIndex = clamp t (start h)) as Heq by lia.
      rewrite Heq, str_app_assoc. f_equal. apply slice_app; lia.
Qed.

(** Every range of [merged] gives one highlighted part, the slice between its
    clamped ends. *)
Lemma forEach_merged_highlighted t merged : forall lastIndex parts,
  seg_text <$> filter (fun p => highlighted p = true)
                 (forEach_merged t merged lastIndex parts).2
  = (seg_text <$> filter (fun p => highlighted p = true) parts)
    ++ ((fun h => slice t (clamp t (start h)) (clamp t (end_ h))) <$> merged).
Proof.
  induction merged as [|h merged IH]; intros lastIndex parts.
  - simpl. by rewrite app_nil_r.
  - cbn [forEach_merged]. rewrite IH. rewrite fmap_cons.
    destruct (_ >? _); rewrite !filter_app, !fmap_app, <- ?app_assoc; done.
Qed.

End Slices.

(** ** The renderer: the claims *)

(** The parts of a non-empty [highlights] array, through the value model. *)
Lemma HighlightedText_parts t h hs :
  (HighlightedText t (Some (h :: hs))).2
  = let r := forEach_merged t (RangeMerger (h :: hs)) 0 [] in
    if r.1 <? strlen t
    then r.2 ++ [mkSegment (slice t r.1 (strlen t)) false]
    else r.2.
Proof.
  unfold HighlightedText, RangeMerger.
  destruct (mergePass (h :: hs)) as [objs merged].
  destruct (forEach_merged t (deref objs <$> merged) 0 []) as [lastIndex parts].
  simpl. by destruct (_ <? _).
Qed.

(** Rendering a list that is already merged leaves the stored ranges as they
    are. *)
Lemma HighlightedText_merged_unchanged t hs :
  Sorted by_start hs -> Sorted apart hs ->
  (HighlightedText t (Some hs)).1 = Some hs.
Proof.
  intros Hs Ha. destruct hs as [|h hs]; [done|].
  unfold HighlightedText. rewrite (mergePass_merged _ Hs Ha).
  by destruct (forEach_merged _ _ _ _).
Qed.

(** C5.  For every text and every list of ranges (a Range of the data model
    has [start < end]; [start <= end] is all that is used; the list may be
    empty, unsorted, overlapping, or reach beyond the text), the texts of the
    parts that [HighlightedText] returns concatenate to the input text; and
    the highlighted parts are, in order, the slices of the text between the
    ends of the merged ranges, each clamped to [[0, len(text)]] before
    slicing. *)
Theorem HighlightedText_reproduces_text (t : string)
    (highlights : option (list Highlight)) :
  ((forall hs h, highlights = Some hs -> h ∈ hs -> start h <= end_ h) ->
   rendered_text (HighlightedText t highlights).2 = t)
  /\ seg_text <$> filter (fun p => highlighted p = true) (HighlightedText t highlights).2
     = (fun h => slice t (clamp t (start h)) (clamp t (end_ h)))
         <$> RangeMerger (default [] highlights).
Proof.
  destruct highlights as [[|h hs]|]; [split; intros; simpl; try apply str_app_nil_r; done| |
    split; intros; simpl; try apply str_app_nil_r; done].
  rewrite HighlightedText_parts. cbn [default]. split.
  - intros Hok.
    destruct (forEach_merged_text t (RangeMerger (h :: hs)) 0 []) as [Hfst Htxt].
    + rewrite RangeMerger_values. apply merge_values_apart.
    + rewrite RangeMerger_values.
      apply (merge_values_Forall (fun h => start h <= end_ h)); [simpl; lia|].
      apply Forall_forall. intros h' Hh'. by apply (Hok (h :: hs)).
    + unfold strlen. lia.
    + intros h' _. apply clamp_range.
    + cbv zeta. destruct (Z.ltb_spec (forEach_merged t (RangeMerger (h :: hs)) 0 []).1 (strlen t)).
      * rewrite rendered_text_app, Htxt. simpl. rewrite str_app_nil_r.
        change (EmptyString +:+ ?s) with s.
        rewrite slice_app by lia. apply slice_full.
      * rewrite Htxt. simpl. change (EmptyString +:+ ?s) with s.
        replace ((forEach_merged t (RangeMerger (h :: hs)) 0 []).1) with (strlen t) by lia.
        apply slice_full.
  - pose proof (forEach_merged_highlighted t (RangeMerger (h :: hs)) 0 []) as Hh.
    cbv zeta. destruct (_ <? _); [|exact Hh].
    rewrite filter_app, fmap_app, Hh. simpl. by rewrite app_nil_r.
Qed.

Lemma HighlightedText_reproduces_text_witness :
  rendered_text
    (HighlightedText fox
       (Some [mkHighlight 10 15; mkHighlight 4 9; mkHighlight 17 40])).2
  = fox.
Proof.
  apply (HighlightedText_reproduces_text fox
           (Some [mkHighlight 10 15; mkHighlight 4 9; mkHighlight 17 40])).
  intros hs h [= <-] Hh.
  repeat (apply elem_of_cons in Hh as [->|Hh]; [simpl; lia|]).
  by apply elem_of_nil in Hh.
Defined.

(** Outside the data model: the renderer has no guard of its own for a
    reversed range, whose parts repeat a stretch of the text; no range with
    [start >= end] is ever stored (line 330). *)
Lemma HighlightedText_reversed_range :
  rendered_text (HighlightedText "0123456789" (Some [mkHighlight 5 3])).2
  = "012343456789"%string
  /\ ~ (forall t hs, rendered_text (HighlightedText t (Some hs)).2 = t).
Proof.
  split; [reflexivity|].
  intros H. specialize (H "0123456789"%string [mkHighlight 5 3]).
  vm_compute in H. discriminate H.
Qed.

(** C3 fails on the code: rendering two overlapping ranges assigns to the
    [end] field of the first stored object, so the stored list changes. *)
Theorem HighlightedText_mutates_stored_range :
  let stored := [mkHighlight 4 9; mkHighlight 7 15] in
  (HighlightedText "the quick brown fox" (Some stored)).1
  = Some [mkHighlight 4 15; mkHighlight 7 15]
  /\ (renderContent {[ 0%nat := stored ]}
        (mkBlock paragraph "the quick brown fox") 0).1
     = {[ 0%nat := [mkHighlight 4 15; mkHighlight 7 15] ]}
  /\ (renderContent {[ 0%nat := stored ]}
        (mkBlock paragraph "the quick brown fox") 0).1
     <> {[ 0%nat := stored ]}.
Proof.
  assert ((renderContent {[ 0%nat := [mkHighlight 4 9; mkHighlight 7 15] ]}
        (mkBlock paragraph "the quick brown fox") 0).1
     = {[ 0%nat := [mkHighlight 4 15; mkHighlight 7 15] ]}) as Hr.
  { unfold renderContent. rewrite lookup_singleton_eq.
    cbn -[insert singletonM]. apply insert_singleton_eq. }
  cbv zeta. split_and!; [reflexivity | exact Hr |].
  rewrite Hr. intros Heq.
  apply (f_equal (fun m => m !! 0%nat)) in Heq.
  rewrite !lookup_singleton_eq in Heq. discriminate Heq.
Qed.

(** ** The selection loop *)

Section applyHighlight_facts.

Context (content : list ContentBlock) (blockEls : gmap nat Node) (sel : Selection).

(** A round reads and writes the list of its own block only. *)
Lemma highlightBlock_lookup H i H' :
  highlightBlock content blockEls sel H i = Some H' ->
  forall j, H' !! j
            = if decide (j = i) then afterRound content blockEls sel (H !! i) i
              else H !! j.
Proof.
  unfold highlightBlock, afterRound. intros Hstep j.
  destruct (blockEls !! i) as [blockEl|]; [|simplify_eq; by case_decide; subst].
  destruct (content !! i) as [block|]; [|done].
  destruct (offsets _ _ _ _) as [s e].
  destruct (s <? e); simplify_eq; case_decide; subst; try done.
  - by rewrite lookup_insert_eq.
  - by rewrite lookup_insert_ne.
Qed.

Lemma rounds_lookup l : forall H H',
  NoDup l ->
  rounds content blockEls sel l H = Some H' ->
  forall j, H' !! j
            = if decide (j ∈ l) then afterRound content blockEls sel (H !! j) j
              else H !! j.
Proof.
  induction l as [|i l IH]; intros H H' Hnd Hfold j.
  - simpl in Hfold. simplify_eq. by rewrite decide_False by apply not_elem_of_nil.
  - apply NoDup_cons in Hnd as [Hi Hnd]. cbn [rounds] in Hfold.
    destruct (highlightBlock content blockEls sel H i) as [H1|] eqn:Hstep; [|done].
    rewrite (IH H1 H' Hnd Hfold j).
    pose proof (highlightBlock_lookup H i H1 Hstep j) as Hj.
    destruct (decide (j = i)) as [->|Hne].
    + rewrite decide_False by done. rewrite decide_True by left. done.
    + rewrite Hj. destruct (decide (j ∈ l)) as [Hin|Hnin].
      * rewrite decide_True by (by right). done.
      * rewrite decide_False; [done|]. intros [?|?]%elem_of_cons; done.
Qed.

Lemma elem_of_visited j :
  j ∈ visited sel
  <-> (Nat.min (startIndex sel) (endIndex sel) <= j
       <= Nat.max (startIndex sel) (endIndex sel))%nat.
Proof. unfold visited. rewrite elem_of_seq. lia. Qed.

(** What [applyHighlight] hands to [saveHighlights], block by block. *)
Lemma applyHighlight_lookup H H' :
  applyHighlight content blockEls sel H = Some H' ->
  forall j, H' !! j
            = if decide (j ∈ visited sel)
              then afterRound content blockEls sel (H !! j) j
              else H !! j.
Proof. apply rounds_lookup. unfold visited. apply NoDup_seq. Qed.

(** The loop runs to its end when every block element that it finds belongs
    to a block of the section. *)
Lemma applyHighlight_is_Some H :
  (forall i, i ∈ visited sel -> is_Some (blockEls !! i) -> is_Some (content !! i)) ->
  is_Some (applyHighlight content blockEls sel H).
Proof.
  unfold applyHighlight. generalize (visited sel) as l. intros l. revert H.
  induction l as [|i l IH]; intros H Hok; [by eexists|].
  cbn [rounds].
  assert (is_Some (highlightBlock content blockEls sel H i)) as [H1 ->].
  { unfold highlightBlock. destruct (blockEls !! i) as [el|] eqn:Hel; [|by eexists].
    destruct (Hok i) as [b ->]; [by left | by eexists |].
    destruct (offsets _ _ _ _) as [s e]. destruct (s <? e); by eexists. }
  apply IH. intros k Hk. apply Hok. by right.
Qed.

End applyHighlight_facts.

(** ** The selection loop: the claims *)

Section applyHighlight_claims.

Context (content : list ContentBlock) (blockEls : gmap nat Node) (sel : Selection).

Lemma walk_sentinel_or_nonneg nodes target offset : forall acc,
  0 <= offset -> 0 <= acc ->
  walk nodes target offset acc = -1 \/ 0 <= walk nodes target offset acc.
Proof.
  induction nodes as [|n nodes IH]; intros acc Ho Ha; simpl; [by left|].
  destruct (Nat.eqb _ _); [right; lia|].
  apply IH; [done|]. pose proof (textContent_length_nonneg n). lia.
Qed.

(** Both offsets of a round are offsets into a text: they are not negative. *)
Lemma offsets_nonneg blockEl block i :
  0 <= (offsets sel blockEl block i).1 /\ 0 <= (offsets sel blockEl block i).2.
Proof.
  unfold offsets.
  pose proof (walk_sentinel_or_nonneg (createTreeWalker blockEl) (startNode sel)
                (Z.of_nat (range_startOffset sel)) 0 ltac:(lia) ltac:(lia)) as Hs.
  pose proof (walk_sentinel_or_nonneg (createTreeWalker blockEl) (endNode sel)
                (Z.of_nat (range_endOffset sel)) 0 ltac:(lia) ltac:(lia)) as He.
  fold (getBlockOffset blockEl (startNode sel) (Z.of_nat (range_startOffset sel))) in Hs.
  fold (getBlockOffset blockEl (endNode sel) (Z.of_nat (range_endOffset sel))) in He.
  assert (0 <= strlen (text block)) by (unfold strlen; lia).
  repeat match goal with
         | |- context [Nat.eqb ?a ?b] => destruct (Nat.eqb a b)
         | |- context [Z.eqb ?a ?b] => destruct (Z.eqb_spec a b)
         | |- context [Z.gtb ?a ?b] => destruct (Z.gtb a b)
         end; simpl; lia.
Qed.

(** A round leaves the list of its block alone or appends one range with
    [0 <= start < end] to it. *)
Lemma afterRound_cases before i :
  afterRound content blockEls sel before i = before
  \/ exists r, afterRound content blockEls sel before i = Some (default [] before ++ [r])
               /\ 0 <= start r < end_ r
               /\ exists blockEl block,
                    blockEls !! i = Some blockEl /\ content !! i = Some block
                    /\ (start r, end_ r) = offsets sel blockEl block i.
Proof.
  unfold afterRound.
  destruct (blockEls !! i) as [blockEl|] eqn:Hel; [|by left].
  destruct (content !! i) as [block|] eqn:Hb; [|by left].
  pose proof (offsets_nonneg blockEl block i) as [Hs He].
  destruct (offsets sel blockEl block i) as [s e] eqn:Ho.
  destruct (Z.ltb_spec s e); [|by left].
  right. exists (mkHighlight s e). simpl in *. split_and!; [done|lia|lia|].
  exists blockEl, block. by rewrite Ho.
Qed.

End applyHighlight_claims.

(** C10.  [applyHighlight] leaves every block outside the closed interval
    between the two endpoint indices with the list it had. *)
Theorem applyHighlight_frame (content : list ContentBlock)
    (blockEls : gmap nat Node) (sel : Selection) (H H' : HighlightsState) (j : nat) :
  applyHighlight content blockEls sel H = Some H' ->
  (j < Nat.min (startIndex sel) (endIndex sel)
   \/ Nat.max (startIndex sel) (endIndex sel) < j)%nat ->
  H' !! j = H !! j.
Proof.
  intros Happly Hout. rewrite (applyHighlight_lookup _ _ _ _ _ Happly j).
  rewrite decide_False; [done|]. rewrite elem_of_visited. lia.
Qed.

(** C1, as the code has it.  [applyHighlight] stores, for each block, the list
    the block had or that list with one new range at its end, and the new
    range has [0 <= start < end]; so a state in which every range has
    [0 <= start < end] stays such a state, and [end <= len(block.text)] is kept
    as well provided the offsets that [getBlockOffset] resolves in a block
    element do not exceed the length of the block's text.  No merge pass runs
    here: the lists are stored as appended. *)
Theorem applyHighlight_appends (content : list ContentBlock)
    (blockEls : gmap nat Node) (sel : Selection) (H H' : HighlightsState) :
  applyHighlight content blockEls sel H = Some H' ->
  (forall i, H' !! i = H !! i
             \/ exists r, H' !! i = Some (default [] (H !! i) ++ [r])
                          /\ 0 <= start r < end_ r)
  /\ ((forall i l r, H !! i = Some l -> r ∈ l -> 0 <= start r < end_ r) ->
      forall i l r, H' !! i = Some l -> r ∈ l -> 0 <= start r < end_ r)
  /\ ((forall i blockEl block,
         blockEls !! i = Some blockEl -> content !! i = Some block ->
         getBlockOffset blockEl (startNode sel) (Z.of_nat (range_startOffset sel))
           <= strlen (text block)
         /\ getBlockOffset blockEl (endNode sel) (Z.of_nat (range_endOffset sel))
           <= strlen (text block)) ->
      (forall i l r block, H !! i = Some l -> r ∈ l -> content !! i = Some block ->
         end_ r <= strlen (text block)) ->
      forall i l r block, H' !! i = Some l -> r ∈ l -> content !! i = Some block ->
        end_ r <= strlen (text block)).
Proof.
  intros Happly.
  assert (forall i, H' !! i = H !! i
     \/ exists r, H' !! i = Some (default [] (H !! i) ++ [r])
          /\ 0 <= start r < end_ r
          /\ exists blockEl block,
               blockEls !! i = Some blockEl /\ content !! i = Some block
               /\ (start r, end_ r) = offsets sel blockEl block i) as Hcases.
  { intros i. rewrite (applyHighlight_lookup _ _ _ _ _ Happly i).
    case_decide; [|by left]. apply afterRound_cases. }
  split_and!.
  - intros i. destruct (Hcases i) as [?|(r & ? & ? & _)]; [by left|].
    right. by exists r.
  - intros Hinv i l r Hl Hr.
    destruct (Hcases i) as [Heq|(r' & Heq & Hr' & _)]; rewrite Heq in Hl.
    + by apply (Hinv i l r).
    + simplify_eq. apply elem_of_app in Hr as [Hr|Hr].
      * destruct (H !! i) as [l0|] eqn:Hi; simpl in Hr; [|by apply elem_of_nil in Hr].
        by apply (Hinv i l0 r).
      * apply list_elem_of_singleton in Hr as ->. done.
  - intros Hres Hinv i l r block Hl Hr Hb.
    destruct (Hcases i) as [Heq|(r' & Heq & Hr' & el & b & Hel & Hb' & Ho)];
      rewrite Heq in Hl.
    + by apply (Hinv i l r).
    + simplify_eq. apply elem_of_app in Hr as [Hr|Hr].
      * destruct (H !! i) as [l0|] eqn:Hi; simpl in Hr; [|by apply elem_of_nil in Hr].
        by apply (Hinv i l0 r).
      * apply list_elem_of_singleton in Hr as ->.
        destruct (Hres i el block Hel Hb) as [Hs He].
        revert Ho Hr'. unfold offsets.
        repeat match goal with
               | |- context [Nat.eqb ?a ?b] => destruct (Nat.eqb a b)
               | |- context [Z.eqb ?a ?b] => destruct (Z.eqb_spec a b)
               | |- context [Z.gtb ?a ?b] => destruct (Z.gtb_spec a b)
               end; simpl; intros [= -> ->]; lia.
Qed.

Lemma applyHighlight_frame_witness :
  ({[ 0%nat := [mkHighlight 1 3]; 2%nat := [mkHighlight 0 2];
      7%nat := [mkHighlight 1 2] ]} : HighlightsState) !! 7%nat
  = ({[ 7%nat := [mkHighlight 1 2] ]} : HighlightsState) !! 7%nat.
Proof.
  apply (applyHighlight_frame sep_content sep_blockEls sep_selection).
  - vm_compute. reflexivity.
  - right. vm_compute. lia.
Defined.

Lemma applyHighlight_appends_witness :
  0 <= start (mkHighlight 7 15) < end_ (mkHighlight 7 15).
Proof.
  assert (applyHighlight fox_content fox_rendered_blockEls (fox_rendered_selection 3 6)
            {[ 0%nat := [mkHighlight 4 9] ]}
          = Some {[ 0%nat := [mkHighlight 4 9; mkHighlight 7 15] ]}) as Happly
    by (vm_compute; reflexivity).
  apply (applyHighlight_appends _ _ _ _ _ Happly) with (i := 0%nat)
    (l := [mkHighlight 4 9; mkHighlight 7 15]).
  - intros i l r Hl Hr. apply lookup_singleton_Some in Hl as [_ <-].
    apply list_elem_of_singleton in Hr as ->. simpl. lia.
  - reflexivity.
  - by right; left.
Defined.

(** C1 as stated fails: after the selections 4-9 and 7-15 of scenario B (the
    second one made in the rendered block, from inside [quick] to inside
    [ brown fox]) the stored list holds both ranges, overlapping, where the
    merge pass would leave one. *)
Lemma applyHighlight_stores_unmerged :
  applyHighlight fox_content fox_blockEls (fox_selection 4 9) ∅
    = Some {[ 0%nat := [mkHighlight 4 9] ]}
  /\ HighlightSet_invariant fox_content {[ 0%nat := [mkHighlight 4 9] ]}
  /\ applyHighlight fox_content fox_rendered_blockEls (fox_rendered_selection 3 6)
       {[ 0%nat := [mkHighlight 4 9] ]}
     = Some {[ 0%nat := [mkHighlight 4 9; mkHighlight 7 15] ]}
  /\ RangeMerger [mkHighlight 4 9; mkHighlight 7 15] = [mkHighlight 4 15]
  /\ ~ HighlightSet_invariant fox_content
         {[ 0%nat := [mkHighlight 4 9; mkHighlight 7 15] ]}.
Proof.
  split_and!; [by vm_compute | | by vm_compute | by vm_compute |].
  - intros i l Hl. apply lookup_singleton_Some in Hl as [<- <-].
    split_and!; [by repeat constructor..|].
    intros r Hr. apply list_elem_of_singleton in Hr as ->. simpl. split; [lia|].
    intros block [= <-]. by vm_compute.
  - intros Hinv.
    destruct (Hinv 0%nat _ (lookup_singleton_eq _ _)) as (_ & Hapart & _).
    apply Sorted_inv in Hapart as [_ Hhd]. apply HdRel_inv in Hhd.
    unfold apart in Hhd. simpl in Hhd. lia.
Qed.

(** No clamp either: in a quote block the quotation marks count as text of
    the block element, and a selection that ends after the closing mark is
    stored with an end beyond the block's text. *)
Example quote_block_range_exceeds_text :
  applyHighlight quote_content quote_blockEls quote_selection ∅
  = Some {[ 0%nat := [mkHighlight 1 5] ]}
  /\ strlen "abc" = 3.
Proof. split; vm_compute; reflexivity. Qed.

(** C8, as the code has it.  For a selection whose endpoints lie in two
    different blocks, [applyHighlight] gives each block of the closed interval
    that has a block element one new range at the end of its list: the block
    of the start endpoint [{resolved start offset, len}], the block of the end
    endpoint [{0, resolved end offset}] (for an endpoint that resolves, that
    is, not to [-1]), every block strictly between them [{0, len}]; a block
    whose range would have [start >= end] keeps its list, and so does a block
    without a block element. *)
Theorem applyHighlight_spanning (content : list ContentBlock)
    (blockEls : gmap nat Node) (sel : Selection) (H H' : HighlightsState) (i : nat) :
  startIndex sel <> endIndex sel ->
  applyHighlight content blockEls sel H = Some H' ->
  (Nat.min (startIndex sel) (endIndex sel) <= i
   <= Nat.max (startIndex sel) (endIndex sel))%nat ->
  (forall blockEl block,
     blockEls !! i = Some blockEl -> content !! i = Some block ->
     let len := strlen (text block) in
     let before := default [] (H !! i) in
     (forall so,
        i = startIndex sel ->
        getBlockOffset blockEl (startNode sel) (Z.of_nat (range_startOffset sel)) = so ->
        so <> -1 ->
        H' !! i = if so <? len then Some (before ++ [mkHighlight so len]) else H !! i)
     /\ (forall eo,
           i = endIndex sel ->
           getBlockOffset blockEl (endNode sel) (Z.of_nat (range_endOffset sel)) = eo ->
           eo <> -1 ->
           H' !! i = if 0 <? eo then Some (before ++ [mkHighlight 0 eo]) else H !! i)
     /\ (i <> startIndex sel -> i <> endIndex sel ->
         H' !! i = if 0 <? len then Some (before ++ [mkHighlight 0 len]) else H !! i))
  /\ (blockEls !! i = None -> H' !! i = H !! i).
Proof.
  intros Hne Happly Hi.
  rewrite (applyHighlight_lookup _ _ _ _ _ Happly i).
  rewrite decide_True by (by apply elem_of_visited).
  unfold afterRound. split.
  - intros blockEl block -> ->. unfold offsets.
    apply Nat.eqb_neq in Hne as Hne'. rewrite Hne'. cbn [andb].
    split_and!.
    + intros so -> Hso Hso'. rewrite Nat.eqb_refl, Hso.
      rewrite (proj2 (Nat.eqb_neq _ _) Hne).
      destruct (Z.eqb_spec so (-1)); [done|]. done.
    + intros eo -> Heo Heo'. rewrite Nat.eqb_refl, Heo.
      rewrite (proj2 (Nat.eqb_neq _ _) (not_eq_sym Hne)).
      destruct (Z.eqb_spec eo (-1)); [done|]. done.
    + intros Hs He.
      rewrite (proj2 (Nat.eqb_neq _ _) Hs), (proj2 (Nat.eqb_neq _ _) He). done.
  - intros ->. done.
Qed.

Lemma applyHighlight_spanning_witness :
  ({[ 0%nat := [mkHighlight 1 3]; 2%nat := [mkHighlight 0 2] ]} : HighlightsState)
    !! 0%nat
  = Some [mkHighlight 1 3].
Proof.
  assert (applyHighlight sep_content sep_blockEls sep_selection ∅
          = Some {[ 0%nat := [mkHighlight 1 3]; 2%nat := [mkHighlight 0 2] ]})
    as Happly by (vm_compute; reflexivity).
  assert (startIndex sep_selection <> endIndex sep_selection) as Hne by (simpl; lia).
  assert (Nat.min (startIndex sep_selection) (endIndex sep_selection) <= 0
          <= Nat.max (startIndex sep_selection) (endIndex sep_selection))%nat as Hi
    by (simpl; lia).
  destruct (applyHighlight_spanning sep_content sep_blockEls sep_selection
              ∅ _ 0%nat Hne Happly Hi) as [Hblock _].
  destruct (Hblock (plainBlockEl 0 "abc") (mkBlock paragraph "abc")
              eq_refl eq_refl) as (Hstart & _ & _).
  exact (Hstart 1 eq_refl eq_refl ltac:(lia)).
Defined.

(** C8 as stated fails: a separator strictly inside the selection has no
    block element and gets no range, whatever its text. *)
Lemma applyHighlight_skips_separator :
  applyHighlight sep_content sep_blockEls sep_selection ∅
    = Some {[ 0%nat := [mkHighlight 1 3]; 2%nat := [mkHighlight 0 2] ]}
  /\ ~ (forall content blockEls sel (H H' : HighlightsState) i block,
          startIndex sel <> endIndex sel ->
          applyHighlight content blockEls sel H = Some H' ->
          (Nat.min (startIndex sel) (endIndex sel) < i
           < Nat.max (startIndex sel) (endIndex sel))%nat ->
          content !! i = Some block ->
          0 < strlen (text block) ->
          H' !! i
          = Some (default [] (H !! i) ++ [mkHighlight 0 (strlen (text block))])).
Proof.
  assert (applyHighlight sep_content sep_blockEls sep_selection ∅
          = Some {[ 0%nat := [mkHighlight 1 3]; 2%nat := [mkHighlight 0 2] ]})
    as Happly by (vm_compute; reflexivity).
  split; [exact Happly|]. intros Hclaim.
  specialize (Hclaim sep_content sep_blockEls sep_selection ∅ _ 1%nat
                (mkBlock separator "***") ltac:(simpl; lia) Happly
                ltac:(simpl; lia) eq_refl ltac:(vm_compute; reflexivity)).
  vm_compute in Hclaim. discriminate Hclaim.
Qed.

(** ** OffsetResolver: a run *)

Lemma getBlockOffset_correct_witness :
  getBlockOffset
    (Element 0 [Element 1 [TextNode 2 "the "]; TextNode 3 "quick"; TextNode 4 " fox"])
    (TextNode 3 "quick") 2
  = 6
  /\ getBlockOffset
       (Element 0 [Element 1 [TextNode 2 "the "]; TextNode 3 "quick"; TextNode 4 " fox"])
       (TextNode 7 "quick") 2
     = -1.
Proof.
  pose (root := Element 0 [Element 1 [TextNode 2 "the "]; TextNode 3 "quick";
                           TextNode 4 " fox"]).
  assert (NoDup (node_id <$> createTreeWalker root)) as Hnd.
  { apply (bool_decide_unpack _). by vm_compute. }
  split.
  - destruct (getBlockOffset_correct root (TextNode 3 "quick") 2) as [Hfound _].
    destruct (Hfound 1%nat Hnd eq_refl ltac:(vm_compute; split; discriminate))
      as [Heq _].
    exact Heq.
  - apply (getBlockOffset_correct root (TextNode 7 "quick") 2).
    apply (bool_decide_unpack _). by vm_compute.
Defined.

(** ** JSON: what is printed parses back *)

Section JSON_numbers.

Local Arguments String.append !_ _ / : simpl nomatch.

Lemma delimited_no_digit rest : delimited rest -> no_digit rest.
Proof. destruct rest as [|c r]; [done|]. by intros [->|[->| ->]]. Qed.

Lemma scan_digits_no_digit rest : no_digit rest -> scan_digits rest = (Nil, rest).
Proof. destruct rest as [|c r]; simpl; [done|]. by intros ->. Qed.

Lemma scan_digits_print u rest :
  no_digit rest -> scan_digits (NilEmpty.string_of_uint u +:+ rest) = (u, rest).
Proof.
  intros Hrest. induction u; simpl; rewrite ?IHu; try done.
  by apply scan_digits_no_digit.
Qed.

(** The digits of a positive number do not start with [0]. *)
Lemma to_uint_head p u : Pos.to_uint p <> D0 u.
Proof.
  intros Heq.
  pose proof (DecimalPos.Unsigned.to_of (Pos.to_uint p)) as Hn.
  rewrite DecimalPos.Unsigned.of_to in Hn. cbn [N.to_uint] in Hn.
  rewrite Heq in Hn. rewrite DecimalFacts.unorm_D0 in Hn. unfold unorm in Hn.
  destruct (nzhead u) eqn:Hu;
    try (by eapply DecimalFacts.nzhead_nonzero; rewrite Hu, <- Hn).
  injection Hn as ->.
  by apply (DecimalPos.Unsigned.to_uint_nonzero p).
Qed.

Lemma parse_number_signed (negative : bool) p rest :
  delimited rest ->
  parse_number
    ((if negative then String "-" EmptyString else EmptyString)
     +:+ NilEmpty.string_of_uint (Pos.to_uint p) +:+ rest)
  = Some (if negative then Z.neg p else Z.pos p, rest).
Proof.
  intros Hrest. pose proof (delimited_no_digit _ Hrest) as Hnd.
  pose proof (DecimalPos.Unsigned.of_to p) as Hof.
  pose proof (to_uint_head p) as Hhd.
  pose proof (DecimalPos.Unsigned.to_uint_nonnil p) as Hnil.
  unfold parse_number.
  destruct (Pos.to_uint p) as [|u|u|u|u|u|u|u|u|u|u] eqn:Hp;
    [done | by destruct (Hhd u) | ..];
    destruct negative; simpl; rewrite (scan_digits_print u rest Hnd);
    unfold N.of_uint; rewrite Hof;
    (destruct rest as [|c r]; [done|]);
    destruct Hrest as [->|[->| ->]]; reflexivity.
Qed.

Lemma parse_number_print n rest :
  delimited rest -> parse_number (number_to_string n +:+ rest) = Some (n, rest).
Proof.
  intros Hrest. destruct n as [|p|p].
  - simpl. unfold parse_number. simpl.
    rewrite (scan_digits_no_digit rest (delimited_no_digit _ Hrest)).
    destruct rest as [|c r]; [done|].
    destruct Hrest as [->|[->| ->]]; reflexivity.
  - exact (parse_number_signed false p rest Hrest).
  - exact (parse_number_signed true p rest Hrest).
Qed.

Lemma number_to_string_start n rest :
  exists c r, number_to_string n +:+ rest = String c r /\ is_number_start c = true.
Proof.
  destruct n as [|p|p]; simpl; [by eexists _, _ | | by eexists _, _].
  pose proof (DecimalPos.Unsigned.to_uint_nonnil p) as Hnil.
  destruct (Pos.to_uint p); [done|..]; simpl; by eexists _, _.
Qed.

Lemma string_of_uint_plain u : plain (NilEmpty.string_of_uint u) = true.
Proof. induction u; simpl; done. Qed.

Lemma number_to_string_plain n : plain (number_to_string n) = true.
Proof. destruct n; simpl; [done|..]; apply string_of_uint_plain. Qed.

Lemma number_to_string_length n : (1 <= String.length (number_to_string n))%nat.
Proof.
  destruct n as [|p|p]; simpl; [lia| |lia].
  pose proof (DecimalPos.Unsigned.to_uint_nonnil p) as Hnil.
  destruct (Pos.to_uint p); [done|..]; simpl; lia.
Qed.

End JSON_numbers.

Section JSON_values.

Local Arguments String.append !_ _ / : simpl nomatch.

Lemma str_length_app s t :
  String.length (s +:+ t) = (String.length s + String.length t)%nat.
Proof. induction s as [|a s IH]; simpl; [done | by rewrite IH]. Qed.

Lemma scan_string_print s rest :
  plain s = true -> scan_string (s +:+ String dquote rest) = Some (s, rest).
Proof.
  induction s as [|c s IH]; intros Hs; [done|].
  cbn [plain] in Hs. apply andb_prop in Hs as [Hs1 Hs].
  apply andb_prop in Hs1 as [Hs1 Hctl]. apply andb_prop in Hs1 as [Hq Hb].
  apply negb_true_iff in Hq, Hb, Hctl.
  cbn [String.append scan_string]. rewrite Hq, Hb, Hctl, IH; done.
Qed.

Lemma scan_string_quoted s rest :
  plain s = true ->
  exists body, quoted s +:+ rest = String dquote body
               /\ scan_string body = Some (s, rest).
Proof.
  intros Hs. exists (s +:+ String dquote rest). split.
  - unfold quoted. rewrite str_app_cons. f_equal. by rewrite str_app_assoc.
  - by apply scan_string_print.
Qed.

(** At a digit or a [-] the parser reads a number. *)
Lemma parse_value_number fuel c r :
  is_number_start c = true ->
  parse (S fuel) TValue (String c r)
  = match parse_number (String c r) with
    | Some (n, r') => Some (JNum n, r')
    | None => None
    end.
Proof.
  destruct c as [[] [] [] [] [] [] [] []]; try discriminate; reflexivity.
Qed.

Lemma delimited_join_tail {A} (f : A -> string) close l rest :
  close = "]"%char \/ close = "}"%char ->
  delimited (join_tail f close l +:+ rest).
Proof. intros [-> | ->]; destruct l; simpl; auto. Qed.

Lemma json_ind_nested (P : json -> Prop) :
  P JNull -> (forall b, P (JBool b)) -> (forall n, P (JNum n)) ->
  (forall s, P (JStr s)) ->
  (forall items, Forall P items -> P (JArr items)) ->
  (forall members, Forall (fun kv => P kv.2) members -> P (JObj members)) ->
  forall v, P v.
Proof.
  intros Hnull Hbool Hnum Hstr Harr Hobj. fix IH 1.
  intros [|b|n|s|items|members].
  - exact Hnull.
  - apply Hbool.
  - apply Hnum.
  - apply Hstr.
  - apply Harr. induction items as [|x items IHitems]; constructor.
    + apply IH.
    + exact IHitems.
  - apply Hobj. induction members as [|[k x] members IHm]; constructor.
    + apply IH.
    + exact IHm.
Qed.

Lemma JSON_stringify_start v :
  exists c r, JSON_stringify v = String c r /\ is_value_start c = true.
Proof.
  destruct v as [|[]|n|s|items|members]; try (by eexists _, _).
  destruct (number_to_string_start n EmptyString) as (c & r & Hn & Hc).
  rewrite str_app_nil_r in Hn. exists c, r. split; [done|].
  unfold is_value_start. by rewrite Hc.
Qed.

(** After [[], a value: the parser goes on to the elements. *)
Lemma parse_array_elements fuel c r :
  is_value_start c = true ->
  parse (S fuel) TValue (String "[" (String c r))
  = parse fuel (TElements []) (String c r).
Proof.
  destruct c as [[] [] [] [] [] [] [] []]; try discriminate; reflexivity.
Qed.

Lemma parse_elements items : forall x acc fuel rest,
  Forall reads_back (x :: items) ->
  plain_json (JArr (x :: items)) ->
  (jsize (JArr (x :: items)) <= S fuel)%nat ->
  delimited rest ->
  parse fuel (TElements acc)
    (JSON_stringify x +:+ join_tail JSON_stringify "]" items +:+ rest)
  = Some (JArr (rev acc ++ x :: items), rest).
Proof.
  induction items as [|y items IH]; intros x acc fuel rest Hall Hplain Hfuel Hrest;
    apply Forall_cons in Hall as [Hx Hall]; destruct Hplain as [Hpx Hplain];
    cbn [jsize foldr] in Hfuel;
    (destruct fuel as [|fuel]; [lia|]); cbn [parse].
  - rewrite Hx; [|done|lia|simpl; auto]. simpl. done.
  - rewrite Hx; [|done|lia|by apply delimited_join_tail; left].
    cbn [join_tail]. rewrite str_app_cons. cbn [skip_ws is_ws].
    rewrite str_app_assoc. rewrite IH; [|done|done|cbn [jsize foldr]; lia|done].
    cbn [rev]. by rewrite <- app_assoc.
Qed.

Lemma JSON_stringify_members kv rest :
  JSON_stringify (JObj (kv :: rest))
  = String "{" (print_member kv +:+ join_tail print_member "}" rest).
Proof. reflexivity. Qed.

Lemma parse_members members : forall k x acc fuel rest,
  Forall (fun kv => reads_back kv.2) ((k, x) :: members) ->
  plain_json (JObj ((k, x) :: members)) ->
  (jsize (JObj ((k, x) :: members)) <= S fuel)%nat ->
  delimited rest ->
  parse fuel (TMembers acc)
    (print_member (k, x) +:+ join_tail print_member "}" members +:+ rest)
  = Some (JObj (rev acc ++ (k, x) :: members), rest).
Proof.
  induction members as [|[k' y] members IH]; intros k x acc fuel rest Hall Hplain Hfuel Hrest;
    apply Forall_cons in Hall as [Hx Hall]; destruct Hplain as [[Hk Hpx] Hplain];
    cbn [jsize foldr snd] in Hfuel; simpl in Hx, Hk, Hpx;
    (destruct fuel as [|fuel]; [lia|]);
    unfold print_member at 1; unfold quoted;
    rewrite !str_app_cons, !str_app_assoc, !str_app_cons;
    cbn [parse skip_ws is_ws dquote]; rewrite Ascii.eqb_refl;
    change (String "034" ?r) with (String dquote r);
    rewrite (scan_string_print k _ Hk);
    change (EmptyString +:+ ?r) with r;
    cbn [skip_ws is_ws].
  - rewrite Hx; [|done|lia|simpl; auto]. simpl. done.
  - rewrite Hx; [|done|lia|by apply delimited_join_tail; right].
    cbn [join_tail]. rewrite str_app_cons. cbn [skip_ws is_ws].
    rewrite str_app_assoc.
    rewrite IH; [|done|done|cbn [jsize foldr snd]; lia|done].
    cbn [rev]. by rewrite <- app_assoc.
Qed.

(** After [{], a quote: the parser goes on to the members. *)
Lemma parse_object_members fuel r :
  parse (S fuel) TValue (String "{" (String dquote r))
  = parse fuel (TMembers []) (String dquote r).
Proof. reflexivity. Qed.

(** Every value whose strings are plain is read back. *)
Lemma parse_stringify v : reads_back v.
Proof.
  induction v as [|b|n|s|items IH|members IH] using json_ind_nested;
    intros Hplain fuel rest Hfuel Hrest;
    (destruct fuel as [|fuel]; [simpl in Hfuel; lia|]).
  - reflexivity.
  - destruct b; reflexivity.
  - cbn [JSON_stringify].
    destruct (number_to_string_start n rest) as (c & r & Hn & Hc).
    rewrite Hn, parse_value_number, <- Hn by done.
    by rewrite parse_number_print.
  - destruct (scan_string_quoted s rest Hplain) as (body & Hq & Hscan).
    cbn [JSON_stringify]. rewrite Hq.
    cbn [parse skip_ws is_ws dquote]. simpl Ascii.eqb. cbv iota.
    change (String "034" ?r) with (String dquote r) in Hq.
    by rewrite Hscan.
  - destruct items as [|x items]; [reflexivity|].
    cbn [JSON_stringify]. rewrite str_app_cons, str_app_assoc.
    destruct (JSON_stringify_start x) as (c & r & Hx & Hc).
    rewrite Hx, str_app_cons, parse_array_elements, <- str_app_cons, <- Hx by done.
    by apply (parse_elements items x []).
  - destruct members as [|[k x] members]; [reflexivity|].
    rewrite JSON_stringify_members, str_app_cons, str_app_assoc.
    assert (exists r, print_member (k, x)
                        +:+ join_tail print_member "}" members +:+ rest
                      = String dquote r) as [r Hr].
    { unfold print_member, quoted. rewrite str_app_cons. by eexists. }
    rewrite Hr, parse_object_members, <- Hr.
    by apply (parse_members members k x []).
Qed.

End JSON_values.

Section JSON_roundtrip.

Local Arguments String.append !_ _ / : simpl nomatch.

Lemma join_tail_length {A} (f : A -> string) (g : A -> nat) close l :
  Forall (fun y => (g y <= String.length (f y))%nat) l ->
  (foldr (fun y acc => S (g y + acc)) O l < String.length (join_tail f close l))%nat.
Proof.
  induction 1 as [|y l Hy Hl IH]; simpl; [lia|].
  rewrite str_length_app. lia.
Qed.

Lemma jsize_le_length v : (jsize v <= String.length (JSON_stringify v))%nat.
Proof.
  induction v as [|b|n|s|items IH|members IH] using json_ind_nested.
  - simpl. lia.
  - destruct b; simpl; lia.
  - apply number_to_string_length.
  - simpl. lia.
  - destruct items as [|x items]; [simpl; lia|].
    apply Forall_cons in IH as [Hx IH].
    cbn [JSON_stringify jsize foldr String.length]. rewrite str_length_app.
    pose proof (join_tail_length JSON_stringify jsize "]" items IH). lia.
  - destruct members as [|[k x] members]; [simpl; lia|].
    apply Forall_cons in IH as [Hx IH]. simpl in Hx.
    rewrite JSON_stringify_members.
    cbn [jsize foldr String.length snd]. rewrite str_length_app.
    assert (Forall (fun kv => (jsize kv.2 <= String.length (print_member kv))%nat)
              members) as IH'.
    { eapply Forall_impl; [exact IH|]. intros [k' y] Hy. simpl in *.
      rewrite str_length_app. simpl. lia. }
    pose proof (join_tail_length print_member (fun kv => jsize kv.2) "}" members IH').
    assert (jsize x <= String.length (print_member (k, x)))%nat.
    { simpl. rewrite str_length_app. simpl. lia. }
    lia.
Qed.

(** [JSON.parse(JSON.stringify(v))] is [v], for the values of the model
    whose strings need no escape. *)
Lemma JSON_parse_stringify v :
  plain_json v -> JSON_parse (JSON_stringify v) = Some v.
Proof.
  intros Hplain. unfold JSON_parse.
  pose proof (jsize_le_length v) as Hsize.
  pose proof (parse_stringify v Hplain (S (String.length (JSON_stringify v)))
                EmptyString ltac:(lia) I) as Hparse.
  rewrite str_app_nil_r in Hparse. by rewrite Hparse.
Qed.

Lemma JSON_stringify_nonempty v : JSON_stringify v <> EmptyString.
Proof.
  destruct (JSON_stringify_start v) as (c & r & -> & _). discriminate.
Qed.

End JSON_roundtrip.

(** ** The stored state: what is saved loads back *)

Section State_roundtrip.

Implicit Types (H : HighlightsState) (es : list (nat * list Highlight)).

Lemma json_to_Highlight_to_json h : json_to_Highlight (Highlight_to_json h) = Some h.
Proof. destruct h as [s e]. reflexivity. Qed.

Lemma json_to_ranges_to_json l :
  json_to_ranges (JArr (Highlight_to_json <$> l)) = Some l.
Proof.
  unfold json_to_ranges. apply mapM_Some_2.
  induction l as [|h l IH]; constructor; [apply json_to_Highlight_to_json | done].
Qed.

Lemma index_of_key_of_index i : index_of_key (key_of_index i) = Some i.
Proof.
  unfold index_of_key, key_of_index.
  pose proof (parse_number_print (Z.of_nat i) EmptyString I) as Hp.
  rewrite str_app_nil_r in Hp. rewrite Hp.
  rewrite decide_True by (rewrite Nat2Z.id; split; [lia|done]).
  by rewrite Nat2Z.id.
Qed.

Lemma foldl_read_members es : forall H,
  foldl read_member (Some H) (entry_to_member <$> es)
  = Some (foldl (fun m e => <[e.1 := e.2]> m) H es).
Proof.
  induction es as [|[i l] es IH]; intros H; [done|].
  cbn [fmap list_fmap foldl]. unfold read_member at 2. cbn [entry_to_member fst snd].
  cbn [mbind option_bind]. rewrite index_of_key_of_index. cbn [mbind option_bind].
  rewrite json_to_ranges_to_json. cbn [mbind option_bind]. apply IH.
Qed.

Lemma foldl_insert_list_to_map es : forall H,
  NoDup es.*1 ->
  foldl (fun m e => <[e.1 := e.2]> m) H es = list_to_map es ∪ H.
Proof.
  induction es as [|[i l] es IH]; intros H Hnd.
  - simpl. by rewrite (left_id_L ∅ (∪)).
  - rewrite fmap_cons in Hnd. apply NoDup_cons in Hnd as [Hi Hnd].
    cbn [foldl fst snd list_to_map foldr].
    rewrite IH by done. rewrite <- insert_union_l.
    symmetry. apply insert_union_r. by apply not_elem_of_list_to_map_1.
Qed.

Lemma entries_Permutation H : entries H ≡ₚ map_to_list H.
Proof. apply merge_sort_Permutation. Qed.

Lemma json_to_state_to_json H : json_to_state (state_to_json H) = Some H.
Proof.
  unfold json_to_state, state_to_json.
  rewrite foldl_read_members. f_equal.
  assert (NoDup (entries H).*1) as Hnd.
  { rewrite entries_Permutation. apply NoDup_fst_map_to_list. }
  rewrite foldl_insert_list_to_map by done. rewrite (right_id_L ∅ (∪)).
  rewrite (list_to_map_proper _ _ Hnd (entries_Permutation H)).
  apply list_to_map_to_list.
Qed.

Lemma plain_key_of_index i : plain (key_of_index i) = true.
Proof. apply number_to_string_plain. Qed.

Lemma plain_state_to_json H : plain_json (state_to_json H).
Proof.
  unfold state_to_json. generalize (entries H). intros es.
  induction es as [|[i l] es IH]; [done|].
  split; [|exact IH]. split; [apply plain_key_of_index|].
  cbn [snd plain_json]. clear. induction l as [|h l IH]; [done|].
  split; [|exact IH]. by compute.
Qed.

End State_roundtrip.

(** ** Load and save: the claims *)

(** C9.  What [saveHighlights] writes for a HighlightSet, the load effect
    reads back as the same HighlightSet, whatever the state and the storage
    were before; the empty HighlightSet and ranges at the ends of a text are no
    exception. *)
Theorem load_saveHighlights (H : HighlightsState) (sectionId : string)
    (localStorage : gmap string string) (highlights : State) :
  load (saveHighlights sectionId H localStorage).2 sectionId highlights = Shaped H.
Proof.
  unfold load, saveHighlights. cbn [snd]. rewrite lookup_insert_eq.
  rewrite decide_False by apply JSON_stringify_nonempty.
  rewrite JSON_parse_stringify by apply plain_state_to_json.
  unfold setHighlights_parsed. by rewrite json_to_state_to_json.
Qed.

Lemma load_missing localStorage sectionId highlights :
  localStorage !! storageKey sectionId = None ->
  load localStorage sectionId highlights = Shaped ∅.
Proof. intros Hnone. unfold load. by rewrite Hnone. Qed.

(** When [JSON.parse] throws, the effect leaves the state as it found it. *)
Lemma load_unparsable localStorage sectionId highlights saved :
  localStorage !! storageKey sectionId = Some saved ->
  saved <> EmptyString ->
  JSON_parse saved = None ->
  load localStorage sectionId highlights = highlights.
Proof.
  intros Hsaved Hne Hparse. unfold load.
  by rewrite Hsaved, decide_False, Hparse.
Qed.

(** C2 fails on the code for data that does not parse: with no saved data the
    effect sets the empty HighlightSet, but when [JSON.parse] throws, the
    [catch] only logs, and the state keeps the highlights of the section that
    was open before.  (Data that parses to a value of another shape, like
    [42], becomes the state as it is.) *)
Theorem load_malformed_keeps_previous :
  JSON_parse "{" = None
  /\ load {[ storageKey "exodus" := "{"%string ]} "exodus"
       (Shaped {[ 0%nat := [mkHighlight 4 9] ]})
     = Shaped {[ 0%nat := [mkHighlight 4 9] ]}
  /\ Shaped {[ 0%nat := [mkHighlight 4 9] ]} <> Shaped ∅
  /\ load ∅ "exodus" (Shaped {[ 0%nat := [mkHighlight 4 9] ]}) = Shaped ∅
  /\ load {[ storageKey "exodus" := "42"%string ]} "exodus"
       (Shaped {[ 0%nat := [mkHighlight 4 9] ]})
     = Foreign (JNum 42).
Proof.
  split; [reflexivity|]. split; [vm_compute; reflexivity|].
  split; [|split; vm_compute; reflexivity].
  intros Heq.
  pose proof (f_equal (fun s => match s with
                                | Shaped m => m !! 0%nat
                                | Foreign _ => None
                                end) Heq) as Hl.
  simpl in Hl. rewrite lookup_singleton_eq, lookup_empty in Hl. discriminate Hl.
Qed.

(** ** The scenarios of the specification, run on the code *)

(** Scenario A: selections 4-9 and 10-15 (the second one inside the third
    span of the rendered block) stay two ranges, and the text is rendered in
    five parts. *)
Example scenario_A :
  applyHighlight fox_content fox_rendered_blockEls
    (mkSelection 0 (TextNode 6 " brown fox") 1 0 (TextNode 6 " brown fox") 6)
    {[ 0%nat := [mkHighlight 4 9] ]}
  = Some {[ 0%nat := [mkHighlight 4 9; mkHighlight 10 15] ]}
  /\ (HighlightedText fox (Some [mkHighlight 4 9; mkHighlight 10 15])).2
     = [mkSegment "the " false; mkSegment "quick" true; mkSegment " " false;
        mkSegment "brown" true; mkSegment " fox" false].
Proof. split; vm_compute; reflexivity. Qed.

(** Scenarios B and C: overlapping and touching ranges are one range after
    the merge pass of the renderer. *)
Example scenario_B_C :
  RangeMerger [mkHighlight 4 9; mkHighlight 7 15] = [mkHighlight 4 15]
  /\ RangeMerger [mkHighlight 4 9; mkHighlight 9 15] = [mkHighlight 4 15].
Proof. split; reflexivity. Qed.

(** Scenario D: a selection given end first within one block is stored in
    order. *)
Example scenario_D :
  applyHighlight fox_content fox_blockEls (fox_selection 15 4) ∅
  = Some {[ 0%nat := [mkHighlight 4 15] ]}.
Proof. vm_compute. reflexivity. Qed.

(** Scenario F: after [clearHighlights] the section loads empty. *)
Example scenario_F (localStorage : gmap string string) (highlights : State) :
  load (clearHighlights true "genesis" highlights localStorage).2 "genesis" highlights
  = Shaped ∅.
Proof.
  unfold clearHighlights, saveHighlights, load. cbn [snd].
  rewrite lookup_insert_eq. vm_compute. reflexivity.
Qed.

(** * Further properties of the code *)

(** ** What the merge pass does to the stored objects *)

Section MergePass_store.

Implicit Types (objs : list Highlight) (l rest merged : list nat).

(** The loop writes only to accumulators, never to a [start], and never
    makes an [end] smaller. *)
Lemma sweep_store rest : forall objs current merged,
  Forall (fun r => (r < length objs)%nat) (current :: rest) ->
  length (sweep objs current rest merged).1 = length objs
  /\ (forall r, start (deref (sweep objs current rest merged).1 r) = start (deref objs r))
  /\ (forall r, end_ (deref objs r) <= end_ (deref (sweep objs current rest merged).1 r))
  /\ (forall r, r ∉ current :: rest ->
        deref (sweep objs current rest merged).1 r = deref objs r).
Proof.
  induction rest as [|next rest IH]; intros objs current merged Hlt.
  - cbn [sweep fst]. split_and!; [done|done|intros; lia|done].
  - apply Forall_cons in Hlt as [Hc Hrest]. apply Forall_cons in Hrest as [Hn Hrest].
    cbn [sweep]. destruct (_ >=? _).
    + match goal with |- context [sweep ?o current rest merged] =>
        destruct (IH o current merged) as (Hlen & Hstart & Hend & Hframe) end.
      { rewrite length_insert. by apply Forall_cons. }
      rewrite length_insert in Hlen. split_and!; [done| | |].
      * intros r. rewrite Hstart. unfold deref.
        destruct (decide (current = r)) as [->|Hne].
        -- by rewrite list_lookup_total_insert_eq.
        -- by rewrite list_lookup_total_insert_ne.
      * intros r. etrans; [|apply Hend]. unfold deref.
        destruct (decide (current = r)) as [->|Hne].
        -- rewrite list_lookup_total_insert_eq by done. simpl. lia.
        -- by rewrite list_lookup_total_insert_ne.
      * intros r Hr. rewrite Hframe.
        -- unfold deref. apply list_lookup_total_insert_ne. intros ->.
           apply Hr. by left.
        -- intros Hin. apply Hr. apply elem_of_cons in Hin as [->|Hin];
             [by left | by do 2 right].
    + destruct (IH objs next (merged ++ [current])) as (Hlen & Hstart & Hend & Hframe).
      { by apply Forall_cons. }
      split_and!; [done..|]. intros r Hr. apply Hframe.
      intros Hin. apply Hr. by right.
Qed.

(** The order of the sort depends on the [start] fields only. *)
Lemma sort_refs_ext objs objs' l :
  (forall r, start (deref objs' r) = start (deref objs r)) ->
  sort_refs objs' l = sort_refs objs l.
Proof.
  intros Hstart. induction l as [|r l IH]; [done|].
  change (insert_ref objs' r (sort_refs objs' l) = insert_ref objs r (sort_refs objs l)).
  rewrite IH. generalize (sort_refs objs l). intros l'.
  induction l' as [|r' l' IH']; [done|].
  cbn [insert_ref]. by rewrite !Hstart, IH'.
Qed.

(** Run on the store that a first run has left, the loop takes the same
    branches and writes nothing new. *)
Lemma sweep_again rest : forall objs current merged,
  NoDup (current :: rest) ->
  Forall (fun r => (r < length objs)%nat) (current :: rest) ->
  sweep (sweep objs current rest merged).1 current rest merged
  = sweep objs current rest merged.
Proof.
  induction rest as [|next rest IH]; intros objs current merged Hnd Hlt; [done|].
  apply NoDup_cons in Hnd as [Hc Hnd]. pose proof Hnd as Hnd'.
  apply NoDup_cons in Hnd' as [Hn Hr].
  pose proof Hlt as Hlt'. apply Forall_cons in Hlt' as [Hcl Hrest].
  apply Forall_cons in Hrest as [Hnl Hrest].
  cbn [sweep].
  destruct (Z.geb_spec (end_ (deref objs current)) (start (deref objs next))) as [Hge|Hlt0].
  - set (objs1 := <[current := _]> objs).
    assert (Forall (fun r => (r < length objs1)%nat) (current :: rest)) as Hlt1.
    { unfold objs1. rewrite length_insert. by apply Forall_cons. }
    assert (NoDup (current :: rest)) as Hnd1.
    { apply NoDup_cons. split; [|done]. intros Hin. apply Hc. by right. }
    destruct (sweep_store rest objs1 current merged Hlt1)
      as (Hlen & Hstart & Hend & Hframe).
    specialize (IH objs1 current merged Hnd1 Hlt1).
    set (objs' := (sweep objs1 current rest merged).1) in *.
    assert (deref objs1 current
            = {| start := start (deref objs current);
                 end_ := Z.max (end_ (deref objs current)) (end_ (deref objs next)) |})
      as Hcur by (by apply deref_insert_eq).
    assert (deref objs' next = deref objs next) as Hnext.
    { rewrite Hframe.
      - unfold objs1, deref. apply list_lookup_total_insert_ne. intros ->.
        apply Hc. by left.
      - intros Hin. apply elem_of_cons in Hin as [->|Hin]; [apply Hc; by left | done]. }
    pose proof (Hend current) as Hec. pose proof (Hstart current) as Hsc.
    rewrite Hcur in Hec, Hsc. simpl in Hec, Hsc.
    rewrite Hnext.
    destruct (Z.geb_spec (end_ (deref objs' current)) (start (deref objs next))); [|lia].
    assert (<[current := {| start := start (deref objs' current);
                            end_ := Z.max (end_ (deref objs' current))
                                      (end_ (deref objs next)) |}]> objs' = objs')
      as ->; [|exact IH].
    apply list_insert_id. unfold deref.
    rewrite list_lookup_lookup_total_lt
      by (rewrite Hlen; unfold objs1; by rewrite length_insert).
    f_equal. fold (deref objs' current).
    change (objs !!! next) with (deref objs next).
    destruct (deref objs' current) as [s e]. simpl in *. f_equal. lia.
  - destruct (sweep_store rest objs next (merged ++ [current]))
      as (Hlen & Hstart & Hend & Hframe); [by apply Forall_cons|].
    specialize (IH objs next (merged ++ [current]) Hnd).
    set (objs' := (sweep objs next rest (merged ++ [current])).1) in *.
    rewrite (Hframe current) by done. rewrite Hstart.
    destruct (Z.geb_spec (end_ (deref objs current)) (start (deref objs next))); [lia|].
    apply IH. by apply Forall_cons.
Qed.

End MergePass_store.

(** ** Rendering again *)

Lemma mergePass_again hs : mergePass (mergePass hs).1 = mergePass hs.
Proof.
  unfold mergePass at 2 3.
  pose proof (sorted_NoDup hs) as Hnd.
  assert (Forall (fun r => (r < length hs)%nat) (sorted hs)) as Hlt.
  { apply Forall_forall. intros r. apply sorted_lt. }
  destruct (sorted hs) as [|first rest] eqn:Hsorted.
  - cbn [fst]. unfold mergePass. by rewrite Hsorted.
  - destruct (sweep_store rest hs first [] Hlt) as (Hlen & Hstart & _ & _).
    unfold mergePass, sorted. rewrite Hlen, (sort_refs_ext hs) by done.
    fold (sorted hs). rewrite Hsorted. by apply sweep_again.
Qed.

Lemma HighlightedText_stored t hs :
  (HighlightedText t (Some hs)).1 = Some (mergePass hs).1.
Proof.
  destruct hs as [|h hs]; [done|]. unfold HighlightedText.
  destruct (mergePass (h :: hs)) as [objs merged].
  by destruct (forEach_merged _ _ _ _).
Qed.

Lemma mergePass_length hs : length (mergePass hs).1 = length hs.
Proof.
  unfold mergePass.
  assert (Forall (fun r => (r < length hs)%nat) (sorted hs)) as Hlt.
  { apply Forall_forall. intros r. apply sorted_lt. }
  destruct (sorted hs) as [|first rest]; [done|].
  by destruct (sweep_store rest hs first [] Hlt) as (Hlen & _).
Qed.

(** X1.  Rendering is idempotent: [HighlightedText], called on the objects a
    first call has left, leaves them as they are and returns the same
    parts. *)
Theorem HighlightedText_again (t : string) (highlights : option (list Highlight)) :
  HighlightedText t (HighlightedText t highlights).1 = HighlightedText t highlights.
Proof.
  destruct highlights as [hs|]; [|done].
  rewrite HighlightedText_stored.
  destruct hs as [|h hs]; [done|].
  pose proof (mergePass_again (h :: hs)) as Hagain.
  pose proof (mergePass_length (h :: hs)) as Hlen.
  unfold HighlightedText.
  destruct (mergePass (h :: hs)) as [objs merged]. cbn [fst] in *.
  destruct objs as [|o objs]; [done|]. by rewrite Hagain.
Qed.

Lemma sweep_ends (P : Z -> Prop) rest : forall objs current merged,
  Forall (fun h => P (end_ h)) objs ->
  Forall (fun r => (r < length objs)%nat) (current :: rest) ->
  Forall (fun h => P (end_ h)) (sweep objs current rest merged).1.
Proof.
  induction rest as [|next rest IH]; intros objs current merged HP Hlt; [done|].
  apply Forall_cons in Hlt as [Hc Hrest]. apply Forall_cons in Hrest as [Hn Hrest].
  cbn [sweep]. destruct (_ >=? _).
  - apply IH.
    + apply Forall_insert; [done|]. simpl.
      assert (P (end_ (deref objs current)) /\ P (end_ (deref objs next))) as [??].
      { split; unfold deref;
          (eapply (Forall_lookup_1 _ _ _ _ HP), list_lookup_lookup_total_lt; done). }
      destruct (Z.max_spec (end_ (deref objs current)) (end_ (deref objs next)))
        as [[_ ->]|[_ ->]]; done.
    + rewrite length_insert. by apply Forall_cons.
  - apply IH; [done | by apply Forall_cons].
Qed.

Lemma mergePass_store hs :
  (forall r, start (deref (mergePass hs).1 r) = start (deref hs r))
  /\ (forall r, end_ (deref hs r) <= end_ (deref (mergePass hs).1 r))
  /\ Forall (fun h => end_ h ∈ end_ <$> hs) (mergePass hs).1.
Proof.
  unfold mergePass.
  assert (Forall (fun r => (r < length hs)%nat) (sorted hs)) as Hlt.
  { apply Forall_forall. intros r. apply sorted_lt. }
  assert (Forall (fun h => end_ h ∈ end_ <$> hs) hs) as Hends.
  { apply Forall_forall. intros h Hh. by apply list_elem_of_fmap_2. }
  destruct (sorted hs) as [|first rest];
    [cbn [fst]; split_and!; [done|intros; lia|done]|].
  destruct (sweep_store rest hs first [] Hlt) as (_ & Hstart & Hend & _).
  split_and!; [done..|].
  by apply (sweep_ends (fun e => e ∈ end_ <$> hs)).
Qed.

(** X2.  What rendering may do to the stored ranges: it keeps their number
    and every [start]; an [end] can only grow, and only to the [end] of
    another stored range; and the merged ranges of the list are the same before
    and after. *)
Theorem HighlightedText_keeps_ranges (t : string) (hs objs : list Highlight) :
  (HighlightedText t (Some hs)).1 = Some objs ->
  length objs = length hs
  /\ (forall i a b, hs !! i = Some a -> objs !! i = Some b ->
        start b = start a /\ end_ a <= end_ b /\ end_ b ∈ end_ <$> hs)
  /\ RangeMerger objs = RangeMerger hs.
Proof.
  rewrite HighlightedText_stored. intros [= <-].
  destruct (mergePass_store hs) as (Hstart & Hend & Hends).
  split_and!.
  - apply mergePass_length.
  - intros i a b Ha Hb.
    apply list_lookup_total_correct in Ha as Ha'.
    apply list_lookup_total_correct in Hb as Hb'.
    specialize (Hstart i). specialize (Hend i). unfold deref in Hstart, Hend.
    rewrite Ha', Hb' in *. split_and!; [done..|].
    by apply (Forall_lookup_1 _ _ _ _ Hends Hb).
  - unfold RangeMerger at 1. by rewrite mergePass_again.
Qed.

Lemma HighlightedText_keeps_ranges_witness :
  RangeMerger [mkHighlight 4 15; mkHighlight 7 15]
  = RangeMerger [mkHighlight 4 9; mkHighlight 7 15].
Proof.
  apply (HighlightedText_keeps_ranges fox [mkHighlight 4 9; mkHighlight 7 15]).
  reflexivity.
Defined.

(** ** The characters that are shown highlighted *)

Section Coverage.

Implicit Types (h c : Highlight) (l rest hs : list Highlight) (p : Z).

Lemma covered_true hs p : covered hs p = true <-> exists h, h ∈ hs /\ covers h p = true.
Proof.
  unfold covered. rewrite existsb_exists. setoid_rewrite list_elem_of_In. done.
Qed.

Lemma covered_Permutation l l' p : l ≡ₚ l' -> covered l p = covered l' p.
Proof.
  intros Hperm. apply eq_true_iff_eq. rewrite !covered_true.
  by setoid_rewrite Hperm.
Qed.

Lemma sweep_values_covered rest p : forall c,
  Sorted by_start (c :: rest) ->
  covered (sweep_values c rest) p = covered (c :: rest) p.
Proof.
  induction rest as [|next rest IH]; intros c Hs; [done|].
  apply Sorted_inv in Hs as [Hs Hc]. apply HdRel_inv in Hc. unfold by_start in Hc.
  pose proof Hs as Hs'. apply Sorted_inv in Hs' as [Hr Hn].
  cbn [sweep_values].
  destruct (Z.geb_spec (end_ c) (start next)) as [Hge|Hlt].
  - rewrite IH.
    + cbn [covered existsb]. rewrite orb_assoc. f_equal.
      unfold covers. simpl. lia.
    + constructor; [done|].
      destruct Hn as [|h rest Hh]; constructor. unfold by_start in *. simpl. lia.
  - cbn [covered existsb]. f_equal. by apply IH.
Qed.

Lemma merge_values_covered l p : covered (merge_values l) p = covered l p.
Proof.
  rewrite <- (covered_Permutation _ _ p (sort_by_start_Permutation l)).
  unfold merge_values. pose proof (sort_by_start_Sorted l) as Hs.
  destruct (sort_by_start l); [done|]. by apply sweep_values_covered.
Qed.

End Coverage.

(** X3.  The merge pass keeps the covered characters: a position lies in one
    of the merged ranges exactly when it lies in one of the input ranges,
    whatever the input. *)
Theorem RangeMerger_covered (x : list Highlight) (p : Z) :
  covered (RangeMerger x) p = covered x p.
Proof. rewrite RangeMerger_values. apply merge_values_covered. Qed.

Section Mask.

Implicit Types (t : string) (hs merged : list Highlight).

Lemma mask_app p q : mask (p ++ q) = mask p ++ mask q.
Proof.
  induction p as [|x p IH]; [done|]. simpl. by rewrite IH, app_assoc.
Qed.

Lemma substring_length s : forall n m,
  (n + m <= String.length s)%nat -> String.length (substring n m s) = m.
Proof.
  induction s as [|a s IH]; intros [|n] [|m] Hle; simpl in *; try done; try lia.
  - rewrite IH; [done|lia].
  - apply IH. lia.
  - apply IH. lia.
Qed.

Lemma slice_length t a b :
  0 <= a -> a <= b -> b <= strlen t ->
  String.length (slice t a b) = Z.to_nat (b - a).
Proof.
  intros. rewrite slice_inside by done. apply substring_length.
  unfold strlen in *. lia.
Qed.

Lemma coverage_app hs a b c :
  a <= b -> b <= c -> coverage hs a c = coverage hs a b ++ coverage hs b c.
Proof.
  intros Hab Hbc. unfold coverage.
  replace (c - a) with ((b - a) + (c - b)) by lia.
  rewrite seqZ_app, fmap_app by lia. do 3 f_equal; lia.
Qed.

Lemma fmap_constant {A B} (f : A -> B) (l : list A) (v : B) :
  Forall (fun x => f x = v) l -> f <$> l = replicate (length l) v.
Proof.
  induction 1 as [|x l Hx Hl IH]; [done|].
  rewrite fmap_cons, IH, Hx. done.
Qed.

Lemma coverage_const hs a b v :
  (forall p, a <= p < b -> covered hs p = v) ->
  coverage hs a b = replicate (Z.to_nat (b - a)) v.
Proof.
  intros Hv. unfold coverage.
  rewrite <- (length_seqZ a (b - a)). apply fmap_constant.
  apply Forall_forall. intros p Hp. apply elem_of_seqZ in Hp. apply Hv. lia.
Qed.

Lemma coverage_ext hs hs' a b :
  (forall p, a <= p < b -> covered hs p = covered hs' p) ->
  coverage hs a b = coverage hs' a b.
Proof.
  intros Hext. unfold coverage. apply Forall_fmap_ext.
  apply Forall_forall. intros p Hp. apply elem_of_seqZ in Hp. apply Hext. lia.
Qed.

(** In a separated list without reversed ranges, the first range ends
    before every other one starts. *)
Lemma apart_head merged : forall h,
  Sorted apart (h :: merged) ->
  Forall (fun r => start r <= end_ r) merged ->
  Forall (fun r => end_ h < start r) merged.
Proof.
  induction merged as [|r merged IH]; intros h Hs Hok; [done|].
  apply Sorted_inv in Hs as [Hs Hh]. apply HdRel_inv in Hh. unfold apart in Hh.
  apply Forall_cons in Hok as [Hr Hok].
  constructor; [done|].
  eapply Forall_impl; [exact (IH r Hs Hok)|]. simpl. lia.
Qed.

Lemma covered_none hs p : Forall (fun r => covers r p = false) hs -> covered hs p = false.
Proof.
  induction 1 as [|r hs Hr Hhs IH]; [done|]. cbn [covered existsb].
  by rewrite Hr.
Qed.

(** The parts that the loop and the last [if] add display, character by
    character, the coverage of the text from [lastIndex] on. *)
Lemma forEach_merged_mask t merged : forall lastIndex parts,
  Sorted apart merged ->
  Forall (fun h => start h <= end_ h) merged ->
  0 <= lastIndex <= strlen t ->
  (forall h, head merged = Some h -> lastIndex <= clamp t (start h)) ->
  mask (let r := forEach_merged t merged lastIndex parts in
        if r.1 <? strlen t
        then r.2 ++ [mkSegment (slice t r.1 (strlen t)) false]
        else r.2)
  = mask parts ++ coverage merged lastIndex (strlen t).
Proof.
  induction merged as [|h merged IH]; intros lastIndex parts Hs Hok Hl Hhd.
  - cbn [forEach_merged fst snd].
    rewrite (coverage_const [] lastIndex (strlen t) false) by done.
    destruct (Z.ltb_spec lastIndex (strlen t)).
    + rewrite mask_app. simpl. rewrite slice_length by lia. by rewrite app_nil_r.
    + replace (strlen t - lastIndex) with 0 by lia. simpl. by rewrite app_nil_r.
  - cbn [forEach_merged]. fold (clamp t (start h)). fold (clamp t (end_ h)).
    pose proof (apart_head merged h Hs) as Hfar.
    apply Sorted_inv in Hs as [Hs Hh]. apply Forall_cons in Hok as [Hse Hok].
    specialize (Hfar Hok).
    pose proof (clamp_range t (start h)) as Hcs.
    pose proof (clamp_range t (end_ h)) as Hce.
    pose proof (clamp_mono t _ _ Hse) as Hmono.
    specialize (Hhd h eq_refl).
    rewrite IH; [|done|done|lia|].
    2:{ intros h' Hh'. destruct merged as [|h'' merged]; simplify_eq/=.
        apply HdRel_inv in Hh. unfold apart in Hh. apply clamp_mono. lia. }
    rewrite (coverage_app (h :: merged) lastIndex (clamp t (start h)) (strlen t)) by lia.
    rewrite (coverage_app (h :: merged) (clamp t (start h)) (clamp t (end_ h))
               (strlen t)) by lia.
    rewrite (coverage_const (h :: merged) lastIndex (clamp t (start h)) false).
    2:{ intros p Hp. apply covered_none. constructor.
        - unfold covers, clamp in *. lia.
        - eapply Forall_impl; [exact Hfar|]. intros r Hr.
          unfold covers, clamp in *. lia. }
    rewrite (coverage_const (h :: merged) (clamp t (start h)) (clamp t (end_ h)) true).
    2:{ intros p Hp. cbn [covered existsb].
        assert (covers h p = true) as ->; [|done]. unfold covers, clamp in *. lia. }
    rewrite (coverage_ext (h :: merged) merged (clamp t (end_ h)) (strlen t)).
    2:{ intros p Hp. cbn [covered existsb].
        assert (covers h p = false) as ->; [|done]. unfold covers, clamp in *. lia. }
    rewrite !app_assoc. f_equal.
    rewrite mask_app. simpl. rewrite slice_length, app_nil_r by lia.
    destruct (Z.gtb_spec (clamp t (start h)) lastIndex).
    + rewrite mask_app. simpl. rewrite slice_length, app_nil_r by lia. done.
    + replace (clamp t (start h) - lastIndex) with 0 by lia. simpl.
      by rewrite app_nil_r.
Qed.

End Mask.

(** X4.  A character is shown highlighted exactly when a stored range covers
    it: for a range list without reversed ranges, the parts of
    [HighlightedText], read character by character, are highlighted at the
    positions that lie in one of the ranges and nowhere else. *)
Theorem HighlightedText_mask (t : string) (highlights : option (list Highlight)) :
  (forall hs h, highlights = Some hs -> h ∈ hs -> start h <= end_ h) ->
  mask (HighlightedText t highlights).2
  = coverage (default [] highlights) 0 (strlen t).
Proof.
  intros Hok.
  assert (mask [mkSegment t false] = coverage [] 0 (strlen t)) as Hplain.
  { rewrite (coverage_const [] 0 (strlen t) false) by done. simpl.
    rewrite app_nil_r. f_equal. unfold strlen. lia. }
  destruct highlights as [[|h hs]|]; [done| |done].
  rewrite HighlightedText_parts. cbn [default].
  rewrite forEach_merged_mask.
  - simpl. apply coverage_ext. intros p _. rewrite RangeMerger_values.
    apply merge_values_covered.
  - rewrite RangeMerger_values. apply merge_values_apart.
  - rewrite RangeMerger_values.
    apply (merge_values_Forall (fun h => start h <= end_ h)); [simpl; lia|].
    apply Forall_forall. intros h' Hh'. by apply (Hok (h :: hs)).
  - unfold strlen. lia.
  - intros h' _. apply clamp_range.
Qed.

Lemma HighlightedText_mask_witness :
  mask (HighlightedText "abcdef" (Some [mkHighlight 3 9; mkHighlight 1 2])).2
  = [false; true; false; true; true; true].
Proof.
  rewrite (HighlightedText_mask "abcdef" (Some [mkHighlight 3 9; mkHighlight 1 2])).
  - reflexivity.
  - intros hs h [= <-] Hh.
    repeat (apply elem_of_cons in Hh as [->|Hh]; [simpl; lia|]).
    by apply elem_of_nil in Hh.
Defined.

Lemma slice_nonempty t a b :
  0 <= a -> a < b -> b <= strlen t -> slice t a b <> EmptyString.
Proof.
  intros Ha Hab Hb Hempty.
  pose proof (slice_length t a b Ha ltac:(lia) Hb) as Hlen.
  rewrite Hempty in Hlen. simpl in Hlen. lia.
Qed.

Lemma forEach_merged_plain_parts t merged : forall lastIndex parts,
  0 <= lastIndex <= strlen t ->
  Forall (fun p => highlighted p = false -> seg_text p <> EmptyString) parts ->
  0 <= (forEach_merged t merged lastIndex parts).1 <= strlen t
  /\ Forall (fun p => highlighted p = false -> seg_text p <> EmptyString)
       (forEach_merged t merged lastIndex parts).2.
Proof.
  induction merged as [|h merged IH]; intros lastIndex parts Hl Hparts; [done|].
  cbn [forEach_merged]. fold (clamp t (start h)). fold (clamp t (end_ h)).
  pose proof (clamp_range t (start h)). pose proof (clamp_range t (end_ h)).
  apply IH; [lia|].
  apply Forall_app. split; [|by repeat constructor].
  destruct (Z.gtb_spec (clamp t (start h)) lastIndex); [|done].
  apply Forall_app. split; [done|]. repeat constructor.
  intros _. apply slice_nonempty; lia.
Qed.

(** X5.  With a non-empty [highlights] array, [HighlightedText] returns no
    empty plain part: a part that is not highlighted always shows at least
    one character, whatever the ranges are. *)
Theorem HighlightedText_plain_parts_nonempty (t : string) (hs : list Highlight)
    (part : Segment) :
  hs <> [] ->
  part ∈ (HighlightedText t (Some hs)).2 ->
  highlighted part = false ->
  seg_text part <> EmptyString.
Proof.
  intros Hne Hin. destruct hs as [|h hs]; [done|].
  rewrite HighlightedText_parts in Hin. cbv zeta in Hin.
  destruct (forEach_merged_plain_parts t (RangeMerger (h :: hs)) 0 [])
    as [Hfst Hparts]; [unfold strlen; lia | done |].
  revert part Hin.
  apply (proj1 (Forall_forall
                  (fun p => highlighted p = false -> seg_text p <> EmptyString) _)).
  destruct (Z.ltb_spec (forEach_merged t (RangeMerger (h :: hs)) 0 []).1 (strlen t));
    [|done].
  apply Forall_app. split; [done|]. repeat constructor.
  intros _. apply slice_nonempty; lia.
Qed.

Lemma HighlightedText_plain_parts_nonempty_witness :
  seg_text (mkSegment "ab" false) <> EmptyString.
Proof.
  apply (HighlightedText_plain_parts_nonempty "abcd" [mkHighlight 2 9]).
  - discriminate.
  - vm_compute. by left.
  - reflexivity.
Defined.

(** ** OffsetResolver: offsets into the text of the block *)

Section Resolver_text.

Lemma textOf_app l1 l2 : textOf (l1 ++ l2) = textOf l1 +:+ textOf l2.
Proof.
  induction l1 as [|n l1 IH]; [done|]. simpl. by rewrite IH, str_app_assoc.
Qed.

Lemma Node_ind_nested (P : Node -> Prop) :
  (forall id data, P (TextNode id data)) ->
  (forall id children, Forall P children -> P (Element id children)) ->
  forall n, P n.
Proof.
  intros Htext Helem. fix IH 1. intros [id data|id children].
  - apply Htext.
  - apply Helem. induction children as [|c children IHc]; constructor.
    + apply IH.
    + exact IHc.
Qed.

(** The text of a node is the text of its text nodes in document order. *)
Lemma textContent_textNodes n : textContent n = textOf (textNodes n).
Proof.
  induction n as [id data|id children IH] using Node_ind_nested.
  - simpl. by rewrite str_app_nil_r.
  - cbn [textContent textNodes].
    induction IH as [|c children Hc Hall IHc]; [done|].
    cbn [foldr flat_map]. by rewrite textOf_app, Hc, IHc.
Qed.

Lemma textContent_walker id children :
  textContent (Element id children) = textOf (createTreeWalker (Element id children)).
Proof. exact (textContent_textNodes (Element id children)). Qed.

Lemma textLength_textOf l : textLength l = strlen (textOf l).
Proof.
  induction l as [|n l IH]; [done|].
  simpl. unfold strlen in *. rewrite str_length_app, IH.
  unfold textContent_length, strlen. lia.
Qed.

Lemma substring_app_skip pre : forall s o n,
  substring (String.length pre + o) n (pre +:+ s) = substring o n s.
Proof.
  induction pre as [|a pre IH]; intros s o n; [done|].
  rewrite str_app_cons. simpl. apply IH.
Qed.

Lemma substring_app_within s : forall post o n,
  (o + n <= String.length s)%nat ->
  substring o n (s +:+ post) = substring o n s.
Proof.
  induction s as [|a s IH]; intros post o n Hle.
  - simpl in Hle. assert (o = 0%nat /\ n = 0%nat) as [-> ->] by lia.
    simpl. by rewrite substring_nil.
  - rewrite str_app_cons. destruct o as [|o]; [destruct n as [|n]|]; simpl in *.
    + done.
    + rewrite (IH post 0%nat n); [done|lia].
    + apply IH. lia.
Qed.

Lemma textLength_take_S l k n :
  l !! k = Some n ->
  textLength (take (S k) l) = textLength (take k l) + textContent_length n.
Proof.
  intros Hk. rewrite (take_S_r _ _ _ Hk), textLength_app. simpl. lia.
Qed.

Lemma textLength_take_mono l k k' :
  (k <= k')%nat -> textLength (take k l) <= textLength (take k' l).
Proof.
  intros Hle. replace k' with (k + (k' - k))%nat by lia.
  rewrite <- take_take_drop, textLength_app.
  pose proof (textLength_nonneg (take (k' - k) (drop k l))). lia.
Qed.

End Resolver_text.

(** X6.  The resolved offset addresses, in the whole text of the block
    element, the characters that the offset addresses in the text node: the
    [n] characters of [root.textContent] from [getBlockOffset(root, target,
    offset)] on are the [n] characters of the target's text from [offset]
    on. *)
Theorem getBlockOffset_locates (root target : Node) (k : nat) (offset n : Z) :
  NoDup (node_id <$> createTreeWalker root) ->
  createTreeWalker root !! k = Some target ->
  0 <= offset -> 0 <= n -> offset + n <= textContent_length target ->
  slice (textContent root)
    (getBlockOffset root target offset) (getBlockOffset root target offset + n)
  = slice (textContent target) offset (offset + n).
Proof.
  intros Hnd Hk Ho Hn Hon.
  rewrite (getBlockOffset_at root target offset k Hnd Hk).
  destruct root as [id data|id children]; [done|].
  rewrite textContent_walker.
  rewrite <- (take_drop_middle _ _ _ Hk) at 1.
  rewrite textOf_app. cbn [textOf foldr].
  fold (textOf (drop (S k) (createTreeWalker (Element id children)))).
  set (pre := take k (createTreeWalker (Element id children))).
  set (post := textOf (drop (S k) (createTreeWalker (Element id children)))).
  pose proof (textLength_nonneg pre) as Hpre.
  rewrite (textLength_textOf pre) in *.
  unfold textContent_length, strlen in *.
  rewrite !slice_inside.
  - replace (Z.to_nat (Z.of_nat (String.length (textOf pre)) + offset))
      with (String.length (textOf pre) + Z.to_nat offset)%nat by lia.
    rewrite substring_app_skip.
    replace (Z.of_nat (String.length (textOf pre)) + offset + n
             - (Z.of_nat (String.length (textOf pre)) + offset))
      with (offset + n - offset) by lia.
    apply substring_app_within. lia.
  - lia.
  - lia.
  - unfold strlen. lia.
  - lia.
  - lia.
  - unfold strlen. rewrite !str_length_app. lia.
Qed.

Lemma getBlockOffset_locates_witness :
  slice "the quick fox" 6 9 = slice "quick" 2 5.
Proof.
  pose (root := Element 0 [Element 1 [TextNode 2 "the "]; TextNode 3 "quick";
                           TextNode 4 " fox"]).
  apply (getBlockOffset_locates root (TextNode 3 "quick") 1 2 3).
  - apply (bool_decide_unpack _). by vm_compute.
  - reflexivity.
  - lia.
  - lia.
  - vm_compute. discriminate.
Defined.

(** X7.  Resolved offsets follow the document order: a position in an earlier
    text node, or an earlier position in the same node, never resolves to a
    larger offset. *)
Theorem getBlockOffset_monotone (root n1 n2 : Node) (k1 k2 : nat) (o1 o2 : Z) :
  NoDup (node_id <$> createTreeWalker root) ->
  createTreeWalker root !! k1 = Some n1 ->
  createTreeWalker root !! k2 = Some n2 ->
  0 <= o1 <= textContent_length n1 -> 0 <= o2 ->
  (k1 < k2)%nat \/ (k1 = k2 /\ o1 <= o2) ->
  getBlockOffset root n1 o1 <= getBlockOffset root n2 o2.
Proof.
  intros Hnd Hk1 Hk2 Ho1 Ho2 Horder.
  rewrite (getBlockOffset_at root n1 o1 k1 Hnd Hk1).
  rewrite (getBlockOffset_at root n2 o2 k2 Hnd Hk2).
  destruct Horder as [Hlt|[-> Hle]]; [|lia].
  pose proof (textLength_take_S _ _ _ Hk1) as HS.
  pose proof (textLength_take_mono (createTreeWalker root) (S k1) k2 ltac:(lia)).
  lia.
Qed.

Lemma getBlockOffset_monotone_witness :
  getBlockOffset
    (Element 0 [Element 1 [TextNode 2 "the "]; TextNode 3 "quick"; TextNode 4 " fox"])
    (TextNode 2 "the ") 4
  <= getBlockOffset
       (Element 0 [Element 1 [TextNode 2 "the "]; TextNode 3 "quick"; TextNode 4 " fox"])
       (TextNode 4 " fox") 0.
Proof.
  pose (root := Element 0 [Element 1 [TextNode 2 "the "]; TextNode 3 "quick";
                           TextNode 4 " fox"]).
  apply (getBlockOffset_monotone root (TextNode 2 "the ") (TextNode 4 " fox") 0 2).
  - apply (bool_decide_unpack _). by vm_compute.
  - reflexivity.
  - reflexivity.
  - vm_compute. split; discriminate.
  - lia.
  - left. lia.
Defined.

(** ** Storage: one key per section *)

Lemma storageKey_inj a b : storageKey a = storageKey b -> a = b.
Proof. unfold storageKey. apply (inj (String.append _)). Qed.

(** X8.  Saving the highlights of one section leaves what every other
    section loads as it was. *)
Theorem saveHighlights_other_section (sectionId other : string)
    (H : HighlightsState) (localStorage : gmap string string) (highlights : State) :
  other <> sectionId ->
  load (saveHighlights sectionId H localStorage).2 other highlights
  = load localStorage other highlights.
Proof.
  intros Hne. unfold load, saveHighlights. cbn [snd].
  rewrite lookup_insert_ne; [done|].
  intros Heq. apply Hne. symmetry. by apply storageKey_inj.
Qed.

Lemma saveHighlights_other_section_witness :
  load (saveHighlights "genesis" {[ 0%nat := [mkHighlight 4 9] ]} ∅).2 "exodus"
    (Shaped {[ 0%nat := [mkHighlight 4 9] ]})
  = load ∅ "exodus" (Shaped {[ 0%nat := [mkHighlight 4 9] ]}).
Proof.
  apply (saveHighlights_other_section "genesis" "exodus"). discriminate.
Defined.

(** X9.  [clearHighlights]: once the user has confirmed, the state is empty,
    the section loads empty from then on, and every other section loads what
    it loaded before; without the confirmation neither the state nor the
    storage changes. *)
Theorem clearHighlights_effect (sectionId : string) (highlights later : State)
    (localStorage : gmap string string) :
  (clearHighlights true sectionId highlights localStorage).1 = Shaped ∅
  /\ load (clearHighlights true sectionId highlights localStorage).2 sectionId later
     = Shaped ∅
  /\ (forall other, other <> sectionId ->
        load (clearHighlights true sectionId highlights localStorage).2 other later
        = load localStorage other later)
  /\ clearHighlights false sectionId highlights localStorage
     = (highlights, localStorage).
Proof.
  unfold clearHighlights. split_and!; [done| | |done].
  - unfold load, saveHighlights. cbn [snd]. rewrite lookup_insert_eq.
    rewrite decide_False by apply JSON_stringify_nonempty.
    rewrite JSON_parse_stringify by apply plain_state_to_json.
    unfold setHighlights_parsed. by rewrite json_to_state_to_json.
  - intros other Hne. unfold load, saveHighlights. cbn [snd].
    rewrite lookup_insert_ne; [done|].
    intros Heq. apply Hne. symmetry. by apply storageKey_inj.
Qed.

Lemma clearHighlights_effect_witness :
  load (clearHighlights true "genesis" (Shaped ∅)
          {[ storageKey "exodus" := "{"%string ]}).2 "exodus" (Shaped ∅)
  = load {[ storageKey "exodus" := "{"%string ]} "exodus" (Shaped ∅).
Proof.
  apply (clearHighlights_effect "genesis" (Shaped ∅) (Shaped ∅)). discriminate.
Defined.

(** ** The selection loop: one block, failure, and order *)

Section applyHighlight_more.

Context (content : list ContentBlock).

Lemma rounds_None blockEls sel l : forall H,
  rounds content blockEls sel l H = None
  <-> exists i, i ∈ l /\ is_Some (blockEls !! i) /\ content !! i = None.
Proof.
  induction l as [|i l IH]; intros H.
  - split; [done|]. intros (i & Hi & _). by apply elem_of_nil in Hi.
  - cbn [rounds]. unfold highlightBlock at 1.
    destruct (blockEls !! i) as [el|] eqn:Hel.
    + destruct (content !! i) as [b|] eqn:Hb.
      * destruct (offsets sel el b i) as [s e].
        assert (forall H1, rounds content blockEls sel l H1 = None
                  <-> exists j, j ∈ i :: l /\ is_Some (blockEls !! j)
                                /\ content !! j = None) as Hrec.
        { intros H1. rewrite IH. split.
          - intros (j & Hj & Hrest). exists j. split; [by right|done].
          - intros (j & Hj & Hrest). exists j. split; [|done].
            apply elem_of_cons in Hj as [->|Hj]; [|done].
            destruct Hrest as [_ Hnone]. congruence. }
        destruct (s <? e); apply Hrec.
      * split; [|done]. intros _. exists i. split_and!; [by left|by eexists|done].
    + rewrite IH. split.
      * intros (j & Hj & Hrest). exists j. split; [by right|done].
      * intros (j & Hj & Hrest). exists j. split; [|done].
        apply elem_of_cons in Hj as [->|Hj]; [|done].
        destruct Hrest as [[el Hsome] _]. congruence.
Qed.

Lemma applyHighlight_single blockEls sel H :
  startIndex sel = endIndex sel ->
  applyHighlight content blockEls sel H
  = highlightBlock content blockEls sel H (startIndex sel).
Proof.
  intros Heq. unfold applyHighlight, visited. rewrite <- Heq.
  rewrite Nat.min_id, Nat.max_id.
  replace (S (startIndex sel) - startIndex sel)%nat with 1%nat by lia.
  cbn [seq rounds]. by destruct (highlightBlock _ _ _ _ _).
Qed.

End applyHighlight_more.

(** X10.  A selection within one block: when both endpoints resolve,
    [applyHighlight] stores the range from the smaller to the larger of the two
    resolved offsets, whichever endpoint the selection names first, and
    nothing at all when the two offsets are equal. *)
Theorem applyHighlight_single_block (content : list ContentBlock)
    (blockEls : gmap nat Node) (sel : Selection) (H : HighlightsState)
    (blockEl : Node) (block : ContentBlock) (so eo : Z) :
  startIndex sel = endIndex sel ->
  blockEls !! startIndex sel = Some blockEl ->
  content !! startIndex sel = Some block ->
  getBlockOffset blockEl (startNode sel) (Z.of_nat (range_startOffset sel)) = so ->
  getBlockOffset blockEl (endNode sel) (Z.of_nat (range_endOffset sel)) = eo ->
  so <> -1 -> eo <> -1 ->
  applyHighlight content blockEls sel H
  = Some (if so =? eo then H
          else <[startIndex sel :=
                   default [] (H !! startIndex sel)
                   ++ [mkHighlight (Z.min so eo) (Z.max so eo)]]> H).
Proof.
  intros Heq Hel Hb Hso Heo Hs He.
  rewrite applyHighlight_single by done.
  unfold highlightBlock. rewrite Hel, Hb. unfold offsets.
  rewrite <- Heq, Nat.eqb_refl, Hso, Heo. cbn [andb].
  destruct (Z.eqb_spec so (-1)); [done|]. destruct (Z.eqb_spec eo (-1)); [done|].
  cbn [negb].
  destruct (Z.gtb_spec so eo), (Z.eqb_spec so eo); try lia.
  - destruct (Z.ltb_spec eo so); [|lia]. by rewrite Z.min_r, Z.max_l by lia.
  - destruct (Z.ltb_spec so eo); [lia|done].
  - destruct (Z.ltb_spec so eo); [|lia]. by rewrite Z.min_l, Z.max_r by lia.
Qed.

Lemma applyHighlight_single_block_witness :
  applyHighlight fox_content fox_blockEls (fox_selection 15 4) ∅
  = Some (if 15 =? 4 then ∅
          else <[0%nat := default [] ((∅ : HighlightsState) !! 0%nat)
                          ++ [mkHighlight (Z.min 15 4) (Z.max 15 4)]]> ∅).
Proof.
  apply (applyHighlight_single_block fox_content fox_blockEls (fox_selection 15 4) ∅
           (plainBlockEl 0 fox) (mkBlock paragraph fox) 15 4);
    try reflexivity; discriminate.
Defined.

(** X11.  [applyHighlight] fails, and saves nothing, exactly when between the
    two endpoint indices there is a block element whose index is not an index
    of [section.content]; the highlights held so far play no part in it. *)
Theorem applyHighlight_fails_iff (content : list ContentBlock)
    (blockEls : gmap nat Node) (sel : Selection) (H : HighlightsState) :
  applyHighlight content blockEls sel H = None
  <-> exists i,
        (Nat.min (startIndex sel) (endIndex sel) <= i
         <= Nat.max (startIndex sel) (endIndex sel))%nat
        /\ is_Some (blockEls !! i) /\ content !! i = None.
Proof.
  unfold applyHighlight. rewrite rounds_None.
  by setoid_rewrite elem_of_visited.
Qed.

(** The list of block [j] after a render, from the list before. *)
Lemma renderContent_lookup H block index j :
  (renderContent H block index).1 !! j
  = if decide (j = index)
    then match type block with
         | separator => H !! j
         | _ => (HighlightedText (text block) (H !! j)).1
         end
    else H !! j.
Proof.
  assert (forall t,
            (let '(objs, parts) := HighlightedText t (H !! index) in
             (match objs with Some l => <[index := l]> H | None => H end,
              parts)).1 !! j
            = if decide (j = index) then (HighlightedText t (H !! j)).1 else H !! j)
    as Hcase.
  { intros t. case_decide as Hj.
    - subst j. destruct (H !! index) as [hs|] eqn:Hl.
      + pose proof (HighlightedText_stored t hs) as Hs.
        destruct (HighlightedText t (Some hs)) as [objs parts].
        cbn [fst] in *. subst objs. by rewrite lookup_insert_eq.
      + cbn. exact Hl.
    - destruct (HighlightedText t (H !! index)) as [[l|] parts]; cbn [fst];
        [by rewrite lookup_insert_ne|done]. }
  unfold renderContent.
  destruct (type block); try (case_decide; done);
    destruct (HighlightedText (text block) (H !! index)) as [objs parts] eqn:Hh;
    specialize (Hcase (text block)); rewrite Hh in Hcase; cbn [fst] in *;
    exact Hcase.
Qed.

Lemma renderBlocks_lookup blocks j : forall index H,
  (renderBlocks blocks index H).1 !! j
  = match (if decide (index <= j)%nat then blocks !! (j - index)%nat else None) with
    | Some block =>
        match type block with
        | separator => H !! j
        | _ => (HighlightedText (text block) (H !! j)).1
        end
    | None => H !! j
    end.
Proof.
  induction blocks as [|block rest IH]; intros index H.
  - cbn. by case_decide.
  - cbn [renderBlocks].
    destruct (renderContent H block index) as [H1 parts] eqn:Hr.
    specialize (IH (S index) H1).
    destruct (renderBlocks rest (S index) H1) as [H2 more]. cbn [fst] in *.
    rewrite IH. clear IH.
    pose proof (renderContent_lookup H block index j) as Hj.
    rewrite Hr in Hj. cbn [fst] in Hj. rewrite Hj. clear Hj.
    destruct (decide (j = index)) as [->|Hne].
    + rewrite (decide_False (P := (S index <= index)%nat)) by lia.
      rewrite (decide_True (P := (index <= index)%nat)) by lia.
      by rewrite Nat.sub_diag.
    + destruct (decide (S index <= j)%nat) as [Hle|Hle].
      * rewrite (decide_True (P := (index <= j)%nat)) by lia.
        replace (j - index)%nat with (S (j - S index)) by lia. done.
      * rewrite (decide_False (P := (index <= j)%nat)) by lia. done.
Qed.

(** A render changes the list of a block through [HighlightedText] only, and
    a second render changes nothing more. *)
Lemma render_lookup content H j :
  (render content H).1 !! j
  = match content !! j with
    | Some block =>
        match type block with
        | separator => H !! j
        | _ => (HighlightedText (text block) (H !! j)).1
        end
    | None => H !! j
    end.
Proof.
  unfold render. rewrite renderBlocks_lookup.
  rewrite (decide_True (P := (0 <= j)%nat)) by lia. by rewrite Nat.sub_0_r.
Qed.

Lemma HighlightedText_stored_again t o :
  (HighlightedText t (HighlightedText t o).1).1 = (HighlightedText t o).1.
Proof.
  destruct o as [hs|]; [|done].
  rewrite !HighlightedText_stored.
  f_equal. by rewrite mergePass_again.
Qed.

Lemma render_again content H :
  (render content (render content H).1).1 = (render content H).1.
Proof.
  apply map_eq. intros j. rewrite (render_lookup content (render content H).1).
  rewrite !render_lookup.
  destruct (content !! j) as [block|]; [|done].
  destruct (type block); try done; apply HighlightedText_stored_again.
Qed.

Lemma afterRound_ext content blockEls blockEls' sel o j :
  blockEls !! j = blockEls' !! j ->
  afterRound content blockEls sel o j = afterRound content blockEls' sel o j.
Proof. unfold afterRound. by intros ->. Qed.

(** X12.  Two clicks on MARK, for selections over disjoint ranges of blocks,
    with the render that each click brings about: from a state that has been
    rendered, both orders run to their end and leave the same state.  (The
    block elements that the second click finds need only agree with those of
    the other order between the endpoints of its selection; what the two
    orders hand to [saveHighlights] can differ, since the render in between
    writes into the stored ranges.) *)
Theorem onMark_commute (content : list ContentBlock)
    (blockEls1 blockEls1' blockEls2 blockEls2' : gmap nat Node)
    (sel1 sel2 : Selection) (H : HighlightsState) :
  (Nat.max (startIndex sel1) (endIndex sel1) < Nat.min (startIndex sel2) (endIndex sel2)
   \/ Nat.max (startIndex sel2) (endIndex sel2)
      < Nat.min (startIndex sel1) (endIndex sel1))%nat ->
  (forall i, (Nat.min (startIndex sel1) (endIndex sel1) <= i
              <= Nat.max (startIndex sel1) (endIndex sel1))%nat ->
             blockEls1' !! i = blockEls1 !! i
             /\ (is_Some (blockEls1 !! i) -> is_Some (content !! i))) ->
  (forall i, (Nat.min (startIndex sel2) (endIndex sel2) <= i
              <= Nat.max (startIndex sel2) (endIndex sel2))%nat ->
             blockEls2' !! i = blockEls2 !! i
             /\ (is_Some (blockEls2 !! i) -> is_Some (content !! i))) ->
  (render content H).1 = H ->
  exists after,
    onMark content blockEls1 sel1 H ≫= onMark content blockEls2' sel2 = Some after
    /\ onMark content blockEls2 sel2 H ≫= onMark content blockEls1' sel1 = Some after.
Proof.
  intros Hdisj Hel1 Hel2 Hstable.
  assert (forall j, (render content H).1 !! j = H !! j) as Hst
    by (intros j; by rewrite Hstable).
  assert (forall be be' sel H0,
            (forall i, (Nat.min (startIndex sel) (endIndex sel) <= i
                        <= Nat.max (startIndex sel) (endIndex sel))%nat ->
                       be' !! i = be !! i
                       /\ (is_Some (be !! i) -> is_Some (content !! i))) ->
            (exists A, applyHighlight content be sel H0 = Some A)
            /\ (exists A, applyHighlight content be' sel H0 = Some A)) as Hruns.
  { intros be be' sel H0 Hel. split; apply applyHighlight_is_Some.
    - intros i Hi. apply elem_of_visited in Hi. by apply Hel.
    - intros i Hi. apply elem_of_visited in Hi. destruct (Hel i Hi) as [-> ?]. done. }
  unfold onMark.
  destruct (proj1 (Hruns _ _ sel1 H Hel1)) as [A1 E1].
  destruct (proj1 (Hruns _ _ sel2 H Hel2)) as [A2 E2].
  rewrite E1, E2. cbn [mbind option_bind].
  destruct (proj2 (Hruns _ _ sel2 (render content A1).1 Hel2)) as [B1 F1].
  destruct (proj2 (Hruns _ _ sel1 (render content A2).1 Hel1)) as [B2 F2].
  rewrite F1, F2. eexists. split; [reflexivity|]. f_equal.
  apply map_eq. intros j.
  rewrite (render_lookup content B2 j), (render_lookup content B1 j).
  rewrite (applyHighlight_lookup _ _ _ _ _ F1 j), (applyHighlight_lookup _ _ _ _ _ F2 j).
  rewrite (render_lookup content A1 j), (render_lookup content A2 j).
  rewrite (applyHighlight_lookup _ _ _ _ _ E1 j), (applyHighlight_lookup _ _ _ _ _ E2 j).
  pose proof (Hst j) as Hj. rewrite render_lookup in Hj.
  destruct (decide (j ∈ visited sel1)) as [Hj1|Hj1];
    destruct (decide (j ∈ visited sel2)) as [Hj2|Hj2].
  - apply elem_of_visited in Hj1, Hj2. lia.
  - apply elem_of_visited in Hj1. destruct (Hel1 j Hj1) as [Heq _].
    rewrite (afterRound_ext content blockEls1' blockEls1) by done.
    destruct (content !! j) as [block|]; [|done].
    destruct (type block); try done; rewrite Hj; by rewrite HighlightedText_stored_again.
  - apply elem_of_visited in Hj2. destruct (Hel2 j Hj2) as [Heq _].
    rewrite (afterRound_ext content blockEls2' blockEls2) by done.
    destruct (content !! j) as [block|]; [|done].
    destruct (type block); try done; rewrite Hj; by rewrite HighlightedText_stored_again.
  - done.
Qed.

Lemma onMark_commute_witness :
  exists after,
    onMark sep_content sep_blockEls
      (mkSelection 0 (TextNode 1 "abc") 0 0 (TextNode 1 "abc") 2) ∅
    ≫= onMark sep_content sep_blockEls
         (mkSelection 2 (TextNode 5 "def") 1 2 (TextNode 5 "def") 3)
    = Some after
    /\ onMark sep_content sep_blockEls
         (mkSelection 2 (TextNode 5 "def") 1 2 (TextNode 5 "def") 3) ∅
       ≫= onMark sep_content sep_blockEls
            (mkSelection 0 (TextNode 1 "abc") 0 0 (TextNode 1 "abc") 2)
       = Some after.
Proof.
  apply (onMark_commute sep_content sep_blockEls sep_blockEls sep_blockEls sep_blockEls
           (mkSelection 0 (TextNode 1 "abc") 0 0 (TextNode 1 "abc") 2)
           (mkSelection 2 (TextNode 5 "def") 1 2 (TextNode 5 "def") 3) ∅).
  - left. simpl. lia.
  - intros i Hi. simpl in Hi. assert (i = 0%nat) as -> by lia.
    split; [reflexivity|]. intros _. by eexists.
  - intros i Hi. simpl in Hi. assert (i = 2%nat) as -> by lia.
    split; [reflexivity|]. intros _. by eexists.
  - reflexivity.
Defined.

(** X13.  [findBlockWrapper] returns the nearest node, starting with the node
    itself, that is an element with a [data-block-index] attribute and lies
    below the container: every node before it on the way up is neither such an
    element nor the container, and it is not the container itself.  In every
    other case the result is [null]. *)
Theorem findBlockWrapper_nearest (container : option nat) (chain : list Ancestor)
    (w : Ancestor) :
  findBlockWrapper container chain = Some w
  <-> exists pre post,
        chain = pre ++ w :: post
        /\ is_wrapper w = true
        /\ Some (anc_id w) <> container
        /\ Forall (fun a => Some (anc_id a) <> container /\ is_wrapper a = false) pre.
Proof.
  induction chain as [|curr parents IH]; cbn [findBlockWrapper].
  - split; [done|]. intros (pre & post & Heq & _). by destruct pre.
  - destruct (decide (Some (anc_id curr) = container)) as [Hc|Hc].
    + split; [done|]. intros (pre & post & Heq & _ & Hw & Hpre).
      destruct pre as [|a pre]; injection Heq as -> Heq.
      * done.
      * apply Forall_cons in Hpre as [[Ha _] _]. done.
    + destruct (is_wrapper curr) eqn:Hwrap.
      * split.
        -- intros [= <-]. by exists [], parents.
        -- intros (pre & post & Heq & _ & _ & Hpre).
           destruct pre as [|a pre]; injection Heq as -> Heq.
           ++ done.
           ++ apply Forall_cons in Hpre as [[_ Ha] _]. congruence.
      * rewrite IH. split.
        -- intros (pre & post & -> & Hw & Hwc & Hpre).
           exists (curr :: pre), post. split_and!; [done..|]. by constructor.
        -- intros (pre & post & Heq & Hw & Hwc & Hpre).
           destruct pre as [|a pre]; injection Heq as -> Heq.
           ++ congruence.
           ++ apply Forall_cons in Hpre as [_ Hpre]. by exists pre, post.
Qed.

Lemma parseInt_key_of_index i : parseInt (key_of_index i) = Some (Z.of_nat i).
Proof.
  unfold key_of_index. destruct (Z.of_nat i) as [|p|p] eqn:Hi; [done| |lia].
  cbn [number_to_string].
  pose proof (DecimalPos.Unsigned.of_to p) as Hof.
  pose proof (to_uint_head p) as Hhd.
  pose proof (DecimalPos.Unsigned.to_uint_nonnil p) as Hnil.
  rewrite <- (str_app_nil_r (NilEmpty.string_of_uint (Pos.to_uint p))).
  unfold parseInt.
  destruct (Pos.to_uint p) as [|u|u|u|u|u|u|u|u|u|u] eqn:Hp;
    [done | by destruct (Hhd u) | ..];
    cbn [NilEmpty.string_of_uint]; rewrite str_app_cons;
    cbn [trimStart is_StrWhiteSpaceChar scan_digits digit_of_ascii];
    rewrite (scan_digits_print u EmptyString I);
    unfold N.of_uint; rewrite Hof; reflexivity.
Qed.

Lemma key_of_index_nonempty i : key_of_index i <> EmptyString.
Proof.
  pose proof (number_to_string_length (Z.of_nat i)) as Hlen.
  unfold key_of_index. intros Heq. rewrite Heq in Hlen. simpl in Hlen. lia.
Qed.

(** X14.  The block index that [renderContent] writes into
    [data-block-index] is the index that [applyHighlight] reads back: for two
    endpoints whose nearest wrappers are the elements of blocks [i] and [j],
    lines 299-305 yield [i] and [j]. *)
Theorem selectionIndices_rendered (container : option nat)
    (startChain endChain : list Ancestor) (startBlock endBlock : Ancestor)
    (i j : nat) :
  findBlockWrapper container startChain = Some startBlock ->
  findBlockWrapper container endChain = Some endBlock ->
  dataBlockIndex startBlock = Some (commonProps_dataBlockIndex i) ->
  dataBlockIndex endBlock = Some (commonProps_dataBlockIndex j) ->
  selectionIndices container startChain endChain
  = Some (Some (Z.of_nat i), Some (Z.of_nat j)).
Proof.
  intros Hs He Hi Hj. unfold selectionIndices, blockIndex.
  rewrite Hs, He, Hi, Hj. unfold commonProps_dataBlockIndex.
  rewrite !decide_False by apply key_of_index_nonempty.
  by rewrite !parseInt_key_of_index.
Qed.

Lemma selectionIndices_rendered_witness :
  selectionIndices (Some 100%nat)
    [mkAncestor 1 3 None; mkAncestor 2 1 None;
     mkAncestor 3 1 (Some (commonProps_dataBlockIndex 12)); mkAncestor 100 1 None]
    [mkAncestor 5 3 None;
     mkAncestor 6 1 (Some (commonProps_dataBlockIndex 40)); mkAncestor 100 1 None]
  = Some (Some 12, Some 40).
Proof.
  apply (selectionIndices_rendered (Some 100%nat) _ _
           (mkAncestor 3 1 (Some (commonProps_dataBlockIndex 12)))
           (mkAncestor 6 1 (Some (commonProps_dataBlockIndex 40))) 12 40);
    reflexivity.
Defined.

(** ** Moving between sections (App.tsx) *)

Section Navigation.

Context (SECTIONS : list App.Section_).

Lemma findIndex_from_range l cur k :
  App.findIndex_from l cur k = -1
  \/ k <= App.findIndex_from l cur k < k + Z.of_nat (length l).
Proof.
  revert k. induction l as [|s l IH]; intros k; simpl; [by left|].
  case_decide; [right; lia|]. destruct (IH (k + 1)); [by left | right; lia].
Qed.

Lemma findIndex_from_found l cur k j :
  App.findIndex_from l cur k = j -> j <> -1 -> 0 <= k ->
  exists s, l !! Z.to_nat (j - k) = Some s /\ App.id s = cur.
Proof.
  revert k. induction l as [|s l IH]; intros k Hj Hne Hk; simpl in Hj; [lia|].
  case_decide as Hid.
  - subst j. replace (k - k) with 0 by lia. by exists s.
  - pose proof (findIndex_from_range l cur (k + 1)) as Hrange.
    destruct (IH (k + 1) Hj Hne ltac:(lia)) as (s' & Hs' & Hid').
    exists s'. split; [|done].
    replace (Z.to_nat (j - k)) with (S (Z.to_nat (j - (k + 1)))) by lia. done.
Qed.

(** With distinct ids, the index of a section's id is the place of the
    section. *)
Lemma findIndex_from_NoDup l k n s :
  NoDup (App.id <$> l) -> l !! n = Some s ->
  App.findIndex_from l (App.id s) k = k + Z.of_nat n.
Proof.
  revert k n. induction l as [|s0 l IH]; intros k n Hnd Hn; [done|].
  rewrite fmap_cons in Hnd. apply NoDup_cons in Hnd as [Hs0 Hnd]. simpl.
  destruct n as [|n]; simpl in Hn.
  - injection Hn as ->. rewrite decide_True by done. lia.
  - rewrite decide_False.
    + rewrite (IH (k + 1) n Hnd Hn). lia.
    + intros Heq. apply Hs0. rewrite Heq.
      apply list_elem_of_fmap_2. by eapply list_elem_of_lookup_2.
Qed.

Lemma currentIndex_NoDup n s :
  NoDup (App.id <$> SECTIONS) -> SECTIONS !! n = Some s ->
  App.currentIndex SECTIONS (App.id s) = Z.of_nat n.
Proof.
  intros Hnd Hn. unfold App.currentIndex.
  rewrite (findIndex_from_NoDup _ 0 n s Hnd Hn). lia.
Qed.

Lemma at_index_nat n : App.at_index SECTIONS (Z.of_nat n) = SECTIONS !! n.
Proof.
  unfold App.at_index. destruct (Z.ltb_spec (Z.of_nat n) 0); [lia|].
  by rewrite Nat2Z.id.
Qed.

Lemma handleNext_at n s :
  NoDup (App.id <$> SECTIONS) -> SECTIONS !! n = Some s ->
  App.handleNext SECTIONS (App.id s)
  = Some (match SECTIONS !! S n with
          | Some s' => App.id s'
          | None => App.id s
          end).
Proof.
  intros Hnd Hn. unfold App.handleNext, App.isLast.
  rewrite (currentIndex_NoDup n s Hnd Hn).
  pose proof (lookup_lt_Some _ _ _ Hn) as Hlt.
  destruct (Z.eqb_spec (Z.of_nat n) (Z.of_nat (length SECTIONS) - 1)) as [Hlast|Hnot];
    cbn [negb].
  - rewrite lookup_ge_None_2 by lia. done.
  - replace (Z.of_nat n + 1) with (Z.of_nat (S n)) by lia. rewrite at_index_nat.
    destruct (lookup_lt_is_Some_2 SECTIONS (S n) ltac:(lia)) as [s' ->]. done.
Qed.

Lemma handleKeyDown_ArrowLeft_at n s :
  NoDup (App.id <$> SECTIONS) -> SECTIONS !! n = Some s ->
  App.handleKeyDown SECTIONS "ArrowLeft" (App.id s)
  = Some (match n with
          | O => App.id s
          | S m => match SECTIONS !! m with Some s' => App.id s' | None => App.id s end
          end).
Proof.
  intros Hnd Hn. unfold App.handleKeyDown.
  rewrite decide_False by discriminate. rewrite decide_True by done.
  rewrite (currentIndex_NoDup n s Hnd Hn).
  pose proof (lookup_lt_Some _ _ _ Hn) as Hlt.
  destruct n as [|m].
  - done.
  - destruct (Z.gtb_spec (Z.of_nat (S m)) 0); [|lia].
    replace (Z.of_nat (S m) - 1) with (Z.of_nat m) by lia. rewrite at_index_nat.
    destruct (lookup_lt_is_Some_2 SECTIONS m ltac:(lia)) as [s' ->]. done.
Qed.

End Navigation.

(** X15.  Moving between sections never reads outside [SECTIONS] and never
    leaves it: whatever the current id and the key, [handleNext] and
    [handleKeyDown] end with the current id unchanged or with the id of one of
    the sections. *)
Theorem navigation_stays_within (SECTIONS : list App.Section_) (key cur : string) :
  (exists next, App.handleNext SECTIONS cur = Some next
                /\ (next = cur \/ next ∈ App.id <$> SECTIONS))
  /\ (exists next, App.handleKeyDown SECTIONS key cur = Some next
                   /\ (next = cur \/ next ∈ App.id <$> SECTIONS)).
Proof.
  assert (forall k, 0 <= k < Z.of_nat (length SECTIONS) ->
            exists next, App.id <$> App.at_index SECTIONS k = Some next
                         /\ (next = cur \/ next ∈ App.id <$> SECTIONS)) as Hat.
  { intros k Hk. unfold App.at_index. destruct (Z.ltb_spec k 0); [lia|].
    destruct (lookup_lt_is_Some_2 SECTIONS (Z.to_nat k) ltac:(lia)) as [s Hs].
    rewrite Hs. exists (App.id s). split; [done|]. right.
    apply list_elem_of_fmap_2. by eapply list_elem_of_lookup_2. }
  pose proof (findIndex_from_range SECTIONS cur 0) as Hrange.
  fold (App.currentIndex SECTIONS cur) in Hrange.
  assert (exists next, App.handleNext SECTIONS cur = Some next
                       /\ (next = cur \/ next ∈ App.id <$> SECTIONS)) as Hnext.
  { unfold App.handleNext, App.isLast.
    destruct (Z.eqb_spec (App.currentIndex SECTIONS cur)
                (Z.of_nat (length SECTIONS) - 1)); cbn [negb].
    - exists cur. by split; [|left].
    - apply Hat. lia. }
  split; [exact Hnext|]. unfold App.handleKeyDown.
  case_decide; [exact Hnext|]. case_decide; [|exists cur; by split; [|left]].
  destruct (Z.gtb_spec (App.currentIndex SECTIONS cur) 0).
  - apply Hat. lia.
  - exists cur. by split; [|left].
Qed.

(** X16.  With distinct section ids: from the section at place [n],
    [handleNext] leads to the section at place [n+1] and stays where it is on
    the last one; [ArrowLeft] leads to the section at place [n-1] and stays
    where it is on the first one. *)
Theorem navigation_steps (SECTIONS : list App.Section_) (n : nat) (s : App.Section_) :
  NoDup (App.id <$> SECTIONS) ->
  SECTIONS !! n = Some s ->
  App.handleNext SECTIONS (App.id s)
  = Some (match SECTIONS !! S n with Some s' => App.id s' | None => App.id s end)
  /\ App.handleKeyDown SECTIONS "ArrowLeft" (App.id s)
     = Some (match n with
             | O => App.id s
             | S m => match SECTIONS !! m with
                      | Some s' => App.id s'
                      | None => App.id s
                      end
             end).
Proof.
  intros Hnd Hn. split.
  - by apply handleNext_at.
  - by apply handleKeyDown_ArrowLeft_at.
Qed.

Lemma navigation_steps_witness :
  App.handleNext
    [App.mkSection "genesis" "I" None None None [] None;
     App.mkSection "exodus" "II" None None None [] None]
    "genesis"
  = Some "exodus"%string.
Proof.
  apply (navigation_steps
           [App.mkSection "genesis" "I" None None None [] None;
            App.mkSection "exodus" "II" None None None [] None]
           0 (App.mkSection "genesis" "I" None None None [] None)).
  - apply (bool_decide_unpack _). by vm_compute.
  - reflexivity.
Defined.

(** X17.  With distinct section ids, going to the next section and then back
    with [ArrowLeft] returns to the section one started from, and so does
    going back and then forward. *)
Theorem navigation_there_and_back (SECTIONS : list App.Section_) (n : nat)
    (s s' : App.Section_) :
  NoDup (App.id <$> SECTIONS) ->
  SECTIONS !! n = Some s ->
  SECTIONS !! S n = Some s' ->
  App.handleNext SECTIONS (App.id s) ≫= App.handleKeyDown SECTIONS "ArrowLeft"
  = Some (App.id s)
  /\ App.handleKeyDown SECTIONS "ArrowLeft" (App.id s') ≫= App.handleNext SECTIONS
     = Some (App.id s').
Proof.
  intros Hnd Hn Hn'. split.
  - rewrite (handleNext_at SECTIONS n s Hnd Hn), Hn'. cbn.
    by rewrite (handleKeyDown_ArrowLeft_at SECTIONS (S n) s' Hnd Hn'), Hn.
  - rewrite (handleKeyDown_ArrowLeft_at SECTIONS (S n) s' Hnd Hn'), Hn. cbn.
    by rewrite (handleNext_at SECTIONS n s Hnd Hn), Hn'.
Qed.

Lemma navigation_there_and_back_witness :
  App.handleNext
    [App.mkSection "genesis" "I" None None None [] None;
     App.mkSection "exodus" "II" None None None [] None]
    "genesis"
  ≫= App.handleKeyDown
       [App.mkSection "genesis" "I" None None None [] None;
        App.mkSection "exodus" "II" None None None [] None]
       "ArrowLeft"
  = Some "genesis"%string.
Proof.
  apply (navigation_there_and_back
           [App.mkSection "genesis" "I" None None None [] None;
            App.mkSection "exodus" "II" None None None [] None]
           0 (App.mkSection "genesis" "I" None None None [] None)
           (App.mkSection "exodus" "II" None None None [] None)).
  - apply (bool_decide_unpack _). by vm_compute.
  - reflexivity.
  - reflexivity.
Defined.

(** ** The rendered block as the resolver sees it *)

Section Rendered_block.

Local Arguments String.append !_ _ / : simpl nomatch.

(** The spans that React builds from a list of parts, with the identities of
    the spans and of their text nodes left open. *)
Lemma spans_text (parts : list Segment) : forall g1 g2 : nat -> nat,
  textOf (flat_map textNodes
            (imap (fun k p =>
                     Element (g1 k)
                       (if decide (seg_text p = EmptyString) then []
                        else [TextNode (g2 k) (seg_text p)]))
                  parts))
  = rendered_text parts.
Proof.
  induction parts as [|p parts IH]; intros g1 g2; [done|].
  rewrite imap_cons. cbn [flat_map rendered_text foldr].
  rewrite textOf_app. unfold compose. setoid_rewrite (IH (fun k => g1 (S k)) (fun k => g2 (S k))).
  f_equal. cbn [textNodes]. case_decide as He.
  - by rewrite He.
  - cbn. by rewrite !str_app_nil_r.
Qed.

Lemma spans_ids (parts : list Segment) : forall (g1 g2 : nat -> nat) x,
  x ∈ node_id <$> flat_map textNodes
        (imap (fun k p =>
                 Element (g1 k)
                   (if decide (seg_text p = EmptyString) then []
                    else [TextNode (g2 k) (seg_text p)]))
              parts) ->
  exists k, (k < length parts)%nat /\ x = g2 k.
Proof.
  induction parts as [|p parts IH]; intros g1 g2 x Hx.
  - by apply elem_of_nil in Hx.
  - rewrite imap_cons in Hx. cbn [flat_map] in Hx.
    rewrite fmap_app in Hx. apply elem_of_app in Hx as [Hx|Hx].
    + cbn [textNodes] in Hx. case_decide.
      * by apply elem_of_nil in Hx.
      * cbn in Hx. apply list_elem_of_singleton in Hx. exists 0%nat.
        split; [cbn; lia|done].
    + apply (IH (fun k => g1 (S k)) (fun k => g2 (S k))) in Hx as (k & Hk & ->).
      exists (S k). split; [cbn; lia|done].
Qed.

Lemma spans_NoDup (parts : list Segment) : forall g1 g2 : nat -> nat,
  (forall j k, g2 j = g2 k -> j = k) ->
  NoDup (node_id <$> flat_map textNodes
           (imap (fun k p =>
                    Element (g1 k)
                      (if decide (seg_text p = EmptyString) then []
                       else [TextNode (g2 k) (seg_text p)]))
                 parts)).
Proof.
  induction parts as [|p parts IH]; intros g1 g2 Hinj; [constructor|].
  rewrite imap_cons. cbn [flat_map]. rewrite fmap_app.
  apply NoDup_app. split_and!.
  - cbn [textNodes]. case_decide; cbn; [constructor|].
    apply NoDup_singleton.
  - intros x Hx Hx'. cbn [textNodes] in Hx. case_decide.
    + by apply elem_of_nil in Hx.
    + cbn in Hx. apply list_elem_of_singleton in Hx as ->.
      apply (spans_ids parts (fun k => g1 (S k)) (fun k => g2 (S k))) in Hx'
        as (k & _ & Hk).
      by apply Hinj in Hk.
  - apply (IH (fun k => g1 (S k)) (fun k => g2 (S k))).
    intros j k Hjk. apply Hinj in Hjk. lia.
Qed.

(** The parts of a list without reversed ranges show the text. *)
Lemma HighlightedText_text t highlights :
  (forall hs h, highlights = Some hs -> h ∈ hs -> start h <= end_ h) ->
  rendered_text (HighlightedText t highlights).2 = t.
Proof.
  intros Hok.
  destruct highlights as [[|h hs]|]; [simpl; apply str_app_nil_r| |simpl; apply str_app_nil_r].
  rewrite HighlightedText_parts.
  destruct (forEach_merged_text t (RangeMerger (h :: hs)) 0 []) as [Hfst Htxt].
  - rewrite RangeMerger_values. apply merge_values_apart.
  - rewrite RangeMerger_values.
    apply (merge_values_Forall (fun h => start h <= end_ h)); [simpl; lia|].
    apply Forall_forall. intros h' Hh'. by apply (Hok (h :: hs)).
  - unfold strlen. lia.
  - intros h' _. apply clamp_range.
  - cbv zeta.
    destruct (Z.ltb_spec (forEach_merged t (RangeMerger (h :: hs)) 0 []).1 (strlen t)).
    + rewrite rendered_text_app, Htxt. simpl. rewrite str_app_nil_r.
      rewrite slice_app by lia. apply slice_full.
    + rewrite Htxt. simpl.
      replace ((forEach_merged t (RangeMerger (h :: hs)) 0 []).1) with (strlen t) by lia.
      apply slice_full.
Qed.

(** The text nodes of a rendered block have distinct identities. *)
Lemma renderedBlockEl_NoDup i ty parts :
  NoDup (node_id <$> createTreeWalker (renderedBlockEl i ty parts)).
Proof.
  assert (NoDup (node_id <$> flat_map textNodes
                   (imap (fun k p =>
                            Element (100 * i + 2 * k + 1)
                              (if decide (seg_text p = EmptyString) then []
                               else [TextNode (100 * i + 2 * k + 2) (seg_text p)]))
                         parts))) as Hspans.
  { apply spans_NoDup. intros j k Hjk. lia. }
  unfold renderedBlockEl. cbn [createTreeWalker].
  destruct ty; try exact Hspans.
  - rewrite !flat_map_app, !fmap_app. cbn [flat_map textNodes app fmap list_fmap node_id].
    apply NoDup_cons. split.
    + intros Hin. apply elem_of_app in Hin as [Hin|Hin].
      * apply spans_ids in Hin as (k & Hk & Heq). lia.
      * apply list_elem_of_singleton in Hin. lia.
    + apply NoDup_app. split_and!; [exact Hspans| |apply NoDup_singleton].
      intros x Hx Hx'. apply list_elem_of_singleton in Hx' as ->.
      apply spans_ids in Hx as (k & Hk & Heq). lia.
  - cbn. constructor.
Qed.

(** What a rendered block shows. *)
Lemma renderedBlockEl_textContent i ty parts :
  textContent (renderedBlockEl i ty parts)
  = match ty with
    | separator => EmptyString
    | quote => String "034" (rendered_text parts +:+ String "034" EmptyString)
    | _ => rendered_text parts
    end.
Proof.
  unfold renderedBlockEl. rewrite textContent_walker. cbn [createTreeWalker].
  destruct ty; try apply spans_text.
  - rewrite !flat_map_app, !textOf_app, spans_text. reflexivity.
  - reflexivity.
Qed.

(** An offset resolved in a block element never exceeds the length of the
    element's text. *)
Lemma getBlockOffset_within id children target offset :
  NoDup (node_id <$> createTreeWalker (Element id children)) ->
  target ∈ createTreeWalker (Element id children) ->
  0 <= offset <= textContent_length target ->
  0 <= getBlockOffset (Element id children) target offset
  <= strlen (textContent (Element id children)).
Proof.
  intros Hnd Hin Hoff. apply list_elem_of_lookup in Hin as [k Hk].
  rewrite (getBlockOffset_at _ _ _ k Hnd Hk).
  pose proof (textLength_take_le k _ _ Hk) as Hle.
  pose proof (textLength_nonneg (take k (createTreeWalker (Element id children)))).
  rewrite textContent_walker, <- textLength_textOf. lia.
Qed.

End Rendered_block.

(** X18.  The renderer and the resolver fit together.  For a range list
    without reversed ranges, the element that [renderContent] builds for a
    block shows the block's text, in a [quote] block between two quotation
    marks, and every position in one of its text nodes resolves to an offset
    between [0] and the length of the block's text; in a [quote] block the
    bound is that length plus [2], the two quotation marks counting as text
    of the block element. *)
Theorem renderedBlockEl_offsets (i : nat) (ty : ContentType) (t : string)
    (highlights : option (list Highlight)) :
  (forall hs h, highlights = Some hs -> h ∈ hs -> start h <= end_ h) ->
  textContent (renderedBlockEl i ty (HighlightedText t highlights).2)
  = match ty with
    | separator => EmptyString
    | quote => String "034" (t +:+ String "034" EmptyString)
    | _ => t
    end
  /\ forall target offset,
       target ∈ createTreeWalker (renderedBlockEl i ty (HighlightedText t highlights).2) ->
       0 <= offset <= textContent_length target ->
       0 <= getBlockOffset (renderedBlockEl i ty (HighlightedText t highlights).2)
              target offset
       <= strlen t + match ty with quote => 2 | _ => 0 end.
Proof.
  intros Hok.
  pose proof (renderedBlockEl_textContent i ty (HighlightedText t highlights).2) as Htext.
  rewrite (HighlightedText_text t highlights Hok) in Htext.
  split; [exact Htext|]. intros target offset Hin Hoff.
  pose proof (renderedBlockEl_NoDup i ty (HighlightedText t highlights).2) as Hnd.
  assert (0 <= getBlockOffset (renderedBlockEl i ty (HighlightedText t highlights).2)
                 target offset
          <= strlen (textContent
                       (renderedBlockEl i ty (HighlightedText t highlights).2)))
    as Hbound by (by apply getBlockOffset_within).
  rewrite Htext in Hbound.
  assert (strlen (String "034" (t +:+ String "034" EmptyString)) = strlen t + 2) as Hq.
  { unfold strlen. cbn [String.length]. rewrite str_length_app. cbn. lia. }
  assert (0 <= strlen t) by (unfold strlen; lia).
  destruct ty; rewrite ?Hq in Hbound; try lia.
  change (strlen EmptyString) with 0 in Hbound. lia.
Qed.

Lemma renderedBlockEl_offsets_witness :
  textContent (renderedBlockEl 0 quote (HighlightedText "abc" (Some [mkHighlight 1 2])).2)
  = String "034" ("abc" +:+ String "034" EmptyString)
  /\ 0 <= getBlockOffset
            (renderedBlockEl 0 quote (HighlightedText "abc" (Some [mkHighlight 1 2])).2)
            (TextNode 8 (String "034" EmptyString)) 1
     <= strlen "abc" + 2.
Proof.
  assert (forall hs h, Some [mkHighlight 1 2] = Some hs -> h ∈ hs -> start h <= end_ h)
    as Hok.
  { intros hs h [= <-] Hh. apply list_elem_of_singleton in Hh as ->. simpl. lia. }
  split.
  - apply (renderedBlockEl_offsets 0 quote "abc" (Some [mkHighlight 1 2]) Hok).
  - apply (renderedBlockEl_offsets 0 quote "abc" (Some [mkHighlight 1 2]) Hok).
    + apply list_elem_of_lookup. exists 4%nat. reflexivity.
    + vm_compute. split; discriminate.
Defined.
